(** * The DSR maintenance buffer (src/dsr/model/dsr-maintain-buff.cc)

    A shallow embedding of [ns3::dsr::DsrMaintainBuffer]: the bounded,
    time-evicting vector of packets that wait for a next-hop
    acknowledgment, and its insertion, removal and reconciliation
    operations.

    The C++ object is a [std::vector<DsrMaintainBuffEntry>] together with
    a capacity and a timeout; every member function becomes a function on
    that state.  [Simulator::Now ()], which the entry accessors read from
    the global simulator, is passed explicitly as [now].  The [NS_LOG_*]
    statements have no effect on the state and are left out. *)

From Stdlib Require Import ZArith NArith Lia.
From stdpp Require Import base tactics list sorting.

Module Dsr.

(** ** Data model *)

(** [Ipv4Address] is a 32-bit host-order address; only [operator==] is used. *)
Abbreviation Ipv4Address := N (only parsing).

(** [ns3::Time] is a signed 64-bit tick count; its sums and differences
    are taken in [Z], the range in which the C++ arithmetic is defined. *)
Abbreviation Time := Z (only parsing).

(** [Ptr<const Packet>]: the buffer never looks inside a packet, so only
    the handle is kept. *)
Abbreviation Packet := N (only parsing).

(** Modelled from the spec: the class [DsrMaintainBuffEntry] is declared in
    dsr-maintain-buff.h, which is missing; the fields are the ones of the
    spec's MaintenanceEntry (and of the getters the .cc file calls);
    [m_expire] is the absolute deadline. *)
Record DsrMaintainBuffEntry : Type := mkEntry {
  m_packet   : Packet;
  m_ourAdd   : Ipv4Address;
  m_nextHop  : Ipv4Address;
  m_src      : Ipv4Address;
  m_dst      : Ipv4Address;
  m_ackId    : N;   (* uint16_t *)
  m_segsLeft : N;   (* uint8_t *)
  m_expire   : Time
}.

Definition GetOurAdd (e : DsrMaintainBuffEntry) : Ipv4Address := m_ourAdd e.
Definition GetNextHop (e : DsrMaintainBuffEntry) : Ipv4Address := m_nextHop e.
Definition GetSrc (e : DsrMaintainBuffEntry) : Ipv4Address := m_src e.
Definition GetDst (e : DsrMaintainBuffEntry) : Ipv4Address := m_dst e.
Definition GetAckId (e : DsrMaintainBuffEntry) : N := m_ackId e.
Definition GetSegsLeft (e : DsrMaintainBuffEntry) : N := m_segsLeft e.

(** Modelled from the spec: [DsrMaintainBuffEntry::SetExpireTime] (missing
    header).  "set entry.expireTime = now + timeout": the argument is a
    duration and the stored value the absolute deadline. *)
Definition SetExpireTime (exp now : Time) (e : DsrMaintainBuffEntry)
  : DsrMaintainBuffEntry :=
  {| m_packet := m_packet e; m_ourAdd := m_ourAdd e; m_nextHop := m_nextHop e;
     m_src := m_src e; m_dst := m_dst e; m_ackId := m_ackId e;
     m_segsLeft := m_segsLeft e; m_expire := (exp + now)%Z |}.

(** Modelled from the spec: [DsrMaintainBuffEntry::GetExpireTime] (missing
    header).  The expiry measure "relative to the current time": the time
    left until the deadline, negative once the deadline has passed. *)
Definition GetExpireTime (now : Time) (e : DsrMaintainBuffEntry) : Time :=
  (m_expire e - now)%Z.

(** Modelled from the spec: [Time::IsStrictlyNegative] (nstime.h, missing). *)
Definition IsStrictlyNegative (t : Time) : bool := (t <? 0)%Z.

(** The object state: the vector and the two configuration members. *)
Record DsrMaintainBuffer : Type := mkBuffer {
  m_maintainBuffer        : list DsrMaintainBuffEntry;
  m_maxLen                : N;   (* uint32_t *)
  m_maintainBufferTimeout : Time
}.

Definition with_entries (b : DsrMaintainBuffer)
    (l : list DsrMaintainBuffEntry) : DsrMaintainBuffer :=
  {| m_maintainBuffer := l; m_maxLen := m_maxLen b;
     m_maintainBufferTimeout := m_maintainBufferTimeout b |}.

(** ** The vector idioms of the file *)

Section VectorIdioms.
Context {A : Type}.

(** [v.erase (std::remove_if (v.begin (), v.end (), pred), v.end ())]:
    the elements that do not satisfy [pred], in their order. *)
Fixpoint remove_if (pred : A → bool) (v : list A) : list A :=
  match v with
  | [] => []
  | x :: v' => if pred x then remove_if pred v' else x :: remove_if pred v'
  end.

(** The loop [for (auto i = v.begin (); i != v.end (); ++i)] whose body
    erases [i] and returns at the first element that satisfies [c]: that
    element and the vector without it, or [None] when the loop runs to
    the end. *)
Fixpoint erase_first (c : A → bool) (v : list A) : option (A * list A) :=
  match v with
  | [] => None
  | x :: v' =>
      if c x then Some (x, v')
      else match erase_first c v' with
           | Some (y, r) => Some (y, x :: r)
           | None => None
           end
  end.

(** The same loop when its body only returns [true] at the first
    element that satisfies [c]. *)
Fixpoint any_of (c : A → bool) (v : list A) : bool :=
  match v with
  | [] => false
  | x :: v' => if c x then true else any_of c v'
  end.

(** [v.erase (v.begin ())]; undefined on an empty vector ([None]). *)
Definition erase_begin (v : list A) : option (list A) :=
  match v with
  | [] => None
  | _ :: v' => Some v'
  end.
End VectorIdioms.

(** ** The member functions *)

(** [IsExpired::operator()] *)
Definition IsExpired (now : Time) (e : DsrMaintainBuffEntry) : bool :=
  IsStrictlyNegative (GetExpireTime now e).

(** [DsrMaintainBuffer::Purge] *)
Definition Purge (now : Time) (b : DsrMaintainBuffer) : DsrMaintainBuffer :=
  with_entries b (remove_if (IsExpired now) (m_maintainBuffer b)).

(** [uint32_t] conversion of a [size_t]. *)
Definition to_uint32 (n : N) : N := (n mod 2 ^ 32)%N.

(** [DsrMaintainBuffer::GetSize] *)
Definition GetSize (now : Time) (b : DsrMaintainBuffer)
  : N * DsrMaintainBuffer :=
  let b1 := Purge now b in
  (to_uint32 (N.of_nat (length (m_maintainBuffer b1))), b1).

(** The duplicate test of [Enqueue]. *)
Definition SameEntry (entry i : DsrMaintainBuffEntry) : bool :=
  (GetNextHop i =? GetNextHop entry)%N && (GetOurAdd i =? GetOurAdd entry)%N &&
  (GetSrc i =? GetSrc entry)%N && (GetDst i =? GetDst entry)%N &&
  (GetAckId i =? GetAckId entry)%N && (GetSegsLeft i =? GetSegsLeft entry)%N.

(** [DsrMaintainBuffer::Enqueue].  The result holds the returned flag, the
    caller's entry after the call (it is passed by reference) and the new
    state; [None] is the undefined [erase (begin ())] of an empty vector. *)
Definition Enqueue (now : Time) (entry : DsrMaintainBuffEntry)
    (b : DsrMaintainBuffer)
  : option (bool * DsrMaintainBuffEntry * DsrMaintainBuffer) :=
  let b1 := Purge now b in
  if any_of (SameEntry entry) (m_maintainBuffer b1) then
    Some (false, entry, b1)
  else
    let entry' := SetExpireTime (m_maintainBufferTimeout b1) now entry in
    if (m_maxLen b1 <=? N.of_nat (length (m_maintainBuffer b1)))%N then
      match erase_begin (m_maintainBuffer b1) with
      | Some v => Some (true, entry', with_entries b1 (v ++ [entry']))
      | None => None
      end
    else
      Some (true, entry', with_entries b1 (m_maintainBuffer b1 ++ [entry'])).

(** [DsrMaintainBuffer::DropPacketWithNextHop] *)
Definition DropPacketWithNextHop (now : Time) (nextHop : Ipv4Address)
    (b : DsrMaintainBuffer) : DsrMaintainBuffer :=
  let b1 := Purge now b in
  with_entries b1
    (remove_if (λ en, (GetNextHop en =? nextHop)%N) (m_maintainBuffer b1)).

(** [DsrMaintainBuffer::Dequeue]; the second component is the caller's
    [entry] after the call. *)
Definition Dequeue (now : Time) (nextHop : Ipv4Address)
    (entry : DsrMaintainBuffEntry) (b : DsrMaintainBuffer)
  : bool * DsrMaintainBuffEntry * DsrMaintainBuffer :=
  let b1 := Purge now b in
  match erase_first (λ i, (GetNextHop i =? nextHop)%N) (m_maintainBuffer b1) with
  | Some (i, v) => (true, i, with_entries b1 v)
  | None => (false, entry, b1)
  end.

(** [DsrMaintainBuffer::Find] *)
Definition Find (nextHop : Ipv4Address) (b : DsrMaintainBuffer)
  : bool * DsrMaintainBuffer :=
  (any_of (λ i, (GetNextHop i =? nextHop)%N) (m_maintainBuffer b), b).

(** The loop shared by the four reconciliation functions. *)
Definition erase_match (c : DsrMaintainBuffEntry → bool)
    (b : DsrMaintainBuffer) : bool * DsrMaintainBuffer :=
  match erase_first c (m_maintainBuffer b) with
  | Some (_, v) => (true, with_entries b v)
  | None => (false, b)
  end.

Definition AllEqual_cond (entry i : DsrMaintainBuffEntry) : bool :=
  (GetOurAdd i =? GetOurAdd entry)%N && (GetNextHop i =? GetNextHop entry)%N &&
  (GetSrc i =? GetSrc entry)%N && (GetDst i =? GetDst entry)%N &&
  (GetAckId i =? GetAckId entry)%N && (GetSegsLeft i =? GetSegsLeft entry)%N.

Definition NetworkEqual_cond (entry i : DsrMaintainBuffEntry) : bool :=
  (GetOurAdd i =? GetOurAdd entry)%N && (GetNextHop i =? GetNextHop entry)%N &&
  (GetSrc i =? GetSrc entry)%N && (GetDst i =? GetDst entry)%N &&
  (GetAckId i =? GetAckId entry)%N.

Definition PromiscEqual_cond (entry i : DsrMaintainBuffEntry) : bool :=
  (GetSrc i =? GetSrc entry)%N && (GetDst i =? GetDst entry)%N &&
  (GetSegsLeft i =? GetSegsLeft entry)%N && (GetAckId i =? GetAckId entry)%N.

Definition LinkEqual_cond (entry i : DsrMaintainBuffEntry) : bool :=
  (GetSrc i =? GetSrc entry)%N && (GetDst i =? GetDst entry)%N &&
  (GetOurAdd i =? GetOurAdd entry)%N && (GetNextHop i =? GetNextHop entry)%N.

(** [DsrMaintainBuffer::AllEqual] *)
Definition AllEqual (entry : DsrMaintainBuffEntry) (b : DsrMaintainBuffer)
  : bool * DsrMaintainBuffer := erase_match (AllEqual_cond entry) b.

(** [DsrMaintainBuffer::NetworkEqual] *)
Definition NetworkEqual (entry : DsrMaintainBuffEntry) (b : DsrMaintainBuffer)
  : bool * DsrMaintainBuffer := erase_match (NetworkEqual_cond entry) b.

(** [DsrMaintainBuffer::PromiscEqual] *)
Definition PromiscEqual (entry : DsrMaintainBuffEntry) (b : DsrMaintainBuffer)
  : bool * DsrMaintainBuffer := erase_match (PromiscEqual_cond entry) b.

(** [DsrMaintainBuffer::LinkEqual] *)
Definition LinkEqual (entry : DsrMaintainBuffEntry) (b : DsrMaintainBuffer)
  : bool * DsrMaintainBuffer := erase_match (LinkEqual_cond entry) b.

(** ** Field agreement, as the four acknowledgment channels see it *)

Definition agree_all (entry i : DsrMaintainBuffEntry) : Prop :=
  m_ourAdd i = m_ourAdd entry ∧ m_nextHop i = m_nextHop entry ∧
  m_src i = m_src entry ∧ m_dst i = m_dst entry ∧
  m_ackId i = m_ackId entry ∧ m_segsLeft i = m_segsLeft entry.

Definition agree_network (entry i : DsrMaintainBuffEntry) : Prop :=
  m_ourAdd i = m_ourAdd entry ∧ m_nextHop i = m_nextHop entry ∧
  m_src i = m_src entry ∧ m_dst i = m_dst entry ∧
  m_ackId i = m_ackId entry.

Definition agree_promisc (entry i : DsrMaintainBuffEntry) : Prop :=
  m_src i = m_src entry ∧ m_dst i = m_dst entry ∧
  m_segsLeft i = m_segsLeft entry ∧ m_ackId i = m_ackId entry.

Definition agree_link (entry i : DsrMaintainBuffEntry) : Prop :=
  m_src i = m_src entry ∧ m_dst i = m_dst entry ∧
  m_ourAdd i = m_ourAdd entry ∧ m_nextHop i = m_nextHop entry.

(** What a reconciliation call may do to the buffer: on success exactly
    the first entry that satisfies [P] is gone and every other entry is in
    place; on failure no entry satisfies [P] and the state is the same. *)
Definition first_match_removed (P : DsrMaintainBuffEntry → Prop)
    (b : DsrMaintainBuffer) (res : bool * DsrMaintainBuffer) : Prop :=
  if res.1 then
    ∃ v1 i v2, m_maintainBuffer b = v1 ++ i :: v2 ∧ P i ∧
               Forall (λ y, ¬ P y) v1 ∧ res.2 = with_entries b (v1 ++ v2)
  else
    Forall (λ y, ¬ P y) (m_maintainBuffer b) ∧ res.2 = b.

(** ** Capacity, keys and a caller that enqueues a batch *)

(** The vector is within the capacity. *)
Definition capacity_ok (b : DsrMaintainBuffer) : Prop :=
  (N.of_nat (length (m_maintainBuffer b)) ≤ m_maxLen b)%N.

(** [b'] has the configuration of [b] and is within its capacity. *)
Definition bounded_as (b b' : DsrMaintainBuffer) : Prop :=
  m_maxLen b' = m_maxLen b ∧
  m_maintainBufferTimeout b' = m_maintainBufferTimeout b ∧
  capacity_ok b'.

(** The full-tuple key of an entry. *)
Definition full_key (e : DsrMaintainBuffEntry)
  : Ipv4Address * Ipv4Address * Ipv4Address * Ipv4Address * N * N :=
  (m_nextHop e, m_ourAdd e, m_src e, m_dst e, m_ackId e, m_segsLeft e).

(** A caller that enqueues the entries of [es] one after the other, each at
    its own time, and collects the returned flags. *)
Fixpoint enqueue_all (es : list (Time * DsrMaintainBuffEntry))
    (b : DsrMaintainBuffer) : option (list bool * DsrMaintainBuffer) :=
  match es with
  | [] => Some ([], b)
  | (now, entry) :: es' =>
      match Enqueue now entry b with
      | Some (ok, _, b1) =>
          match enqueue_all es' b1 with
          | Some (oks, b2) => Some (ok :: oks, b2)
          | None => None
          end
      | None => None
      end
  end.

(** The entry as [Enqueue] stores it when called at time [te.1]. *)
Definition stamp (timeout : Time) (te : Time * DsrMaintainBuffEntry)
  : DsrMaintainBuffEntry := SetExpireTime timeout te.1 te.2.

(** No entry of the batch has expired when a later one is enqueued. *)
Fixpoint stays_live (timeout : Time) (es : list (Time * DsrMaintainBuffEntry))
  : Prop :=
  match es with
  | [] => True
  | te :: es' =>
      Forall (λ te', (te'.1 ≤ te.1 + timeout)%Z) es' ∧ stays_live timeout es'
  end.

(** [b'] is [b] with some entries taken out: the configuration is the
    same and the remaining entries are entries of [b], unchanged and in
    their order. *)
Definition shrinks (b b' : DsrMaintainBuffer) : Prop :=
  m_maxLen b' = m_maxLen b ∧
  m_maintainBufferTimeout b' = m_maintainBufferTimeout b ∧
  m_maintainBuffer b' `sublist_of` m_maintainBuffer b.

(** A sample entry: our address 1, source 10, destination 20, three
    segments left; next hop, acknowledgment id and deadline as given. *)
Definition sample (nextHop ackId : N) (expire : Time) : DsrMaintainBuffEntry :=
  mkEntry 7 1 nextHop 10 20 ackId 3 expire.

(** A reconciliation call that does not purge: the vector loses one entry
    when the call succeeds and none when it fails, and an entry that has
    expired at [now] still takes part: it makes the call succeed when it
    satisfies [P], and it stays in the vector when it does not. *)
Definition does_not_purge (now : Time) (P : DsrMaintainBuffEntry → Prop)
    (b : DsrMaintainBuffer) (res : bool * DsrMaintainBuffer) : Prop :=
  length (m_maintainBuffer b) =
    length (m_maintainBuffer res.2) + (if res.1 then 1 else 0) ∧
  ∀ i, i ∈ m_maintainBuffer b → IsExpired now i = true →
       (P i → res.1 = true) ∧ (¬ P i → i ∈ m_maintainBuffer res.2).

(** ** Runs of the public operations *)

(** No two buffered entries have the same full-tuple key. *)
Definition keys_distinct (b : DsrMaintainBuffer) : Prop :=
  NoDup (full_key <$> m_maintainBuffer b).

(** The deadline of [e1] is not after the one of [e2]. *)
Definition not_newer (e1 e2 : DsrMaintainBuffEntry) : Prop :=
  (m_expire e1 ≤ m_expire e2)%Z.

(** The vector is in the order of the deadlines, and no deadline is later
    than the one an entry enqueued at time [t] would get. *)
Definition aged_order (t : Time) (b : DsrMaintainBuffer) : Prop :=
  StronglySorted not_newer (m_maintainBuffer b) ∧
  Forall (λ e, (m_expire e ≤ t + m_maintainBufferTimeout b)%Z)
    (m_maintainBuffer b).

(** One call of a public member function, with the value of
    [Simulator::Now ()] at the call where the function reads it. *)
Inductive call : Type :=
  | CallGetSize (now : Time)
  | CallEnqueue (now : Time) (entry : DsrMaintainBuffEntry)
  | CallDropPacketWithNextHop (now : Time) (nextHop : Ipv4Address)
  | CallDequeue (now : Time) (nextHop : Ipv4Address)
      (entry : DsrMaintainBuffEntry)
  | CallFind (nextHop : Ipv4Address)
  | CallAllEqual (entry : DsrMaintainBuffEntry)
  | CallNetworkEqual (entry : DsrMaintainBuffEntry)
  | CallPromiscEqual (entry : DsrMaintainBuffEntry)
  | CallLinkEqual (entry : DsrMaintainBuffEntry).

(** The state after a call; [None] when the call is undefined. *)
Definition step (c : call) (b : DsrMaintainBuffer) : option DsrMaintainBuffer :=
  match c with
  | CallGetSize now => Some (GetSize now b).2
  | CallEnqueue now entry =>
      match Enqueue now entry b with
      | Some (_, _, b') => Some b'
      | None => None
      end
  | CallDropPacketWithNextHop now nextHop =>
      Some (DropPacketWithNextHop now nextHop b)
  | CallDequeue now nextHop entry => Some (Dequeue now nextHop entry b).2
  | CallFind nextHop => Some (Find nextHop b).2
  | CallAllEqual entry => Some (AllEqual entry b).2
  | CallNetworkEqual entry => Some (NetworkEqual entry b).2
  | CallPromiscEqual entry => Some (PromiscEqual entry b).2
  | CallLinkEqual entry => Some (LinkEqual entry b).2
  end.

(** The state after a sequence of calls. *)
Fixpoint run (cs : list call) (b : DsrMaintainBuffer)
  : option DsrMaintainBuffer :=
  match cs with
  | [] => Some b
  | c :: cs' =>
      match step c b with
      | Some b' => run cs' b'
      | None => None
      end
  end.

(** The time a call reads, when it reads it. *)
Definition call_time (c : call) : option Time :=
  match c with
  | CallGetSize now | CallEnqueue now _ | CallDropPacketWithNextHop now _
  | CallDequeue now _ _ => Some now
  | _ => None
  end.

(** The clock does not run backwards during the calls, from [t] on. *)
Fixpoint clock_monotone (t : Time) (cs : list call) : Prop :=
  match cs with
  | [] => True
  | c :: cs' =>
      match call_time c with
      | Some now => (t ≤ now)%Z ∧ clock_monotone now cs'
      | None => clock_monotone t cs'
      end
  end.

(** The last time read by the calls, [t] when none reads it. *)
Fixpoint clock_after (t : Time) (cs : list call) : Time :=
  match cs with
  | [] => t
  | c :: cs' =>
      match call_time c with
      | Some now => clock_after now cs'
      | None => clock_after t cs'
      end
  end.

(** ** Facts about the vector idioms *)

Section VectorFacts.
Context {A : Type}.
Implicit Types (p c : A → bool) (v r : list A) (x y : A).

Lemma remove_if_elem_of p v x :
  x ∈ remove_if p v ↔ x ∈ v ∧ p x = false.
Proof.
  induction v as [|a v IH]; simpl.
  - split; [intros H | intros [H _]]; inversion H.
  - destruct (p a) eqn:Ha; rewrite ?elem_of_cons, IH; split.
    + intros [? ?]; auto.
    + intros [[-> | ?] ?]; [congruence | auto].
    + intros [-> | [? ?]]; auto.
    + intros [[-> | ?] ?]; auto.
Qed.

Lemma remove_if_sublist p v : remove_if p v `sublist_of` v.
Proof.
  induction v as [|a v IH]; simpl; [constructor |].
  destruct (p a); by constructor.
Qed.

Lemma remove_if_app p v1 v2 :
  remove_if p (v1 ++ v2) = remove_if p v1 ++ remove_if p v2.
Proof.
  induction v1 as [|a v1 IH]; simpl; [done |].
  destruct (p a); simpl; by rewrite IH.
Qed.

Lemma remove_if_length p v : length (remove_if p v) ≤ length v.
Proof. apply sublist_length, remove_if_sublist. Qed.

Lemma remove_if_Forall p v : Forall (λ x, p x = false) (remove_if p v).
Proof.
  induction v as [|a v IH]; simpl; [constructor |].
  destruct (p a) eqn:Ha; [done | by constructor].
Qed.

Lemma remove_if_id p v : Forall (λ x, p x = false) v → remove_if p v = v.
Proof.
  induction 1 as [|a v Ha _ IH]; simpl; [done |].
  by rewrite Ha, IH.
Qed.

Lemma remove_if_idemp p v : remove_if p (remove_if p v) = remove_if p v.
Proof. apply remove_if_id, remove_if_Forall. Qed.

Lemma erase_first_Some c v x r :
  erase_first c v = Some (x, r) ↔
  ∃ v1 v2, v = v1 ++ x :: v2 ∧ r = v1 ++ v2 ∧ c x = true ∧
           Forall (λ y, c y = false) v1.
Proof.
  revert r. induction v as [|a v IH]; intros r; simpl.
  - split; [done |]. intros (v1 & v2 & H & _). by destruct v1.
  - destruct (c a) eqn:Ha.
    + split.
      * intros [= -> ->]. exists [], r. by repeat split.
      * intros (v1 & v2 & H & -> & Hx & Hv1).
        destruct v1 as [|a' v1]; simpl in *.
        -- by inversion H.
        -- inversion H; subst. inversion Hv1; congruence.
    + destruct (erase_first c v) as [[y r']|] eqn:E.
      * split.
        -- intros [= -> <-].
           destruct (proj1 (IH r') eq_refl) as (v1 & v2 & -> & -> & Hx & Hv1).
           exists (a :: v1), v2. repeat split; auto.
        -- intros (v1 & v2 & H & -> & Hx & Hv1).
           destruct v1 as [|a' v1]; simpl in *.
           ++ inversion H; congruence.
           ++ inversion H; subst. inversion Hv1; subst.
              assert (Some (y, r') = Some (x, v1 ++ v2)) as [= -> ->]; [|done].
              apply IH. by exists v1, v2.
      * split; [done |].
        intros (v1 & v2 & H & -> & Hx & Hv1).
        destruct v1 as [|a' v1]; simpl in *.
        -- inversion H; congruence.
        -- inversion H; subst. inversion Hv1; subst.
           assert (None = Some (x, v1 ++ v2)) as [=].
           apply IH. by exists v1, v2.
Qed.

Lemma erase_first_None c v :
  erase_first c v = None ↔ Forall (λ y, c y = false) v.
Proof.
  induction v as [|a v IH]; simpl; [done |].
  destruct (c a) eqn:Ha.
  - split; [done |]. inversion 1; congruence.
  - destruct (erase_first c v) as [[y r]|].
    + split; [done |]. inversion 1; subst.
      assert (Some (y, r) = None) as [=]. by apply IH.
    + split; [| done]. intros _. constructor; [done | by apply IH].
Qed.

Lemma any_of_true c v : any_of c v = true ↔ ∃ x, x ∈ v ∧ c x = true.
Proof.
  induction v as [|a v IH]; simpl.
  - split; [done |]. intros (x & H & _). inversion H.
  - destruct (c a) eqn:Ha.
    + split; [| done]. intros _. exists a. split; [by left | done].
    + rewrite IH. split.
      * intros (x & ? & ?). exists x. split; [by right | done].
      * intros (x & [-> | ?]%elem_of_cons & ?); [congruence | eauto].
Qed.

Lemma any_of_false c v : any_of c v = false ↔ Forall (λ y, c y = false) v.
Proof.
  induction v as [|a v IH]; simpl; [done |].
  destruct (c a) eqn:Ha.
  - split; [done |]. inversion 1; congruence.
  - rewrite IH. split; [by constructor | by inversion 1].
Qed.

Lemma any_of_erase_first c v :
  any_of c v = match erase_first c v with Some _ => true | None => false end.
Proof.
  induction v as [|a v IH]; simpl; [done |].
  destruct (c a); [done |]. rewrite IH. by destruct (erase_first c v) as [[??]|].
Qed.
End VectorFacts.

Ltac conds :=
  unfold SameEntry, AllEqual_cond, NetworkEqual_cond, PromiscEqual_cond,
    LinkEqual_cond, agree_all, agree_network, agree_promisc, agree_link,
    GetOurAdd, GetNextHop, GetSrc, GetDst, GetAckId, GetSegsLeft;
  rewrite ?andb_true_iff, ?N.eqb_eq.

Lemma SameEntry_agree entry i : SameEntry entry i = true ↔ agree_all entry i.
Proof. conds. tauto. Qed.

Lemma AllEqual_cond_agree entry i :
  AllEqual_cond entry i = true ↔ agree_all entry i.
Proof. conds. tauto. Qed.

Lemma NetworkEqual_cond_agree entry i :
  NetworkEqual_cond entry i = true ↔ agree_network entry i.
Proof. conds. tauto. Qed.

Lemma PromiscEqual_cond_agree entry i :
  PromiscEqual_cond entry i = true ↔ agree_promisc entry i.
Proof. conds. tauto. Qed.

Lemma LinkEqual_cond_agree entry i :
  LinkEqual_cond entry i = true ↔ agree_link entry i.
Proof. conds. tauto. Qed.

Lemma with_entries_same b : with_entries b (m_maintainBuffer b) = b.
Proof. by destruct b. Qed.

Lemma Forall_cond_false (c : DsrMaintainBuffEntry → bool)
    (P : DsrMaintainBuffEntry → Prop) v :
  (∀ i, c i = true ↔ P i) →
  Forall (λ y, c y = false) v ↔ Forall (λ y, ¬ P y) v.
Proof.
  intros Hc. apply Forall_iff. intros y. rewrite <- Hc.
  destruct (c y); split; congruence.
Qed.

Lemma erase_match_spec c P b :
  (∀ i, c i = true ↔ P i) →
  first_match_removed P b (erase_match c b) ∧
  ((erase_match c b).1 = true ↔ ∃ i, i ∈ m_maintainBuffer b ∧ P i).
Proof.
  intros Hc. unfold first_match_removed, erase_match.
  destruct (erase_first c (m_maintainBuffer b)) as [[i r]|] eqn:E; simpl.
  - apply erase_first_Some in E as (v1 & v2 & Hv & -> & Hi & Hv1).
    split.
    + exists v1, i, v2. repeat split; [done | by apply Hc |].
      by apply (Forall_cond_false c P).
    + split; [| done]. intros _. exists i. split; [| by apply Hc].
      rewrite Hv. apply elem_of_app. right. by left.
  - apply erase_first_None in E. split.
    + split; [| done]. by apply (Forall_cond_false c P).
    + split; [done |]. intros (i & Hi & HP).
      rewrite Forall_forall in E. specialize (E i Hi).
      apply Hc in HP. congruence.
Qed.

(** The channels on a buffer with one entry: a probe that differs in
    [segsLeft] only is a network acknowledgment but not an exact match; one
    that differs in the two addresses is a promiscuous match but not a
    link-layer one; one that differs in [ackId] and [segsLeft] is a
    link-layer match but not a promiscuous one. *)
Example channels_differ :
  let b := mkBuffer [sample 2 1 9] 50 9 in
  let empty := mkBuffer [] 50 9 in
  NetworkEqual (mkEntry 7 1 2 10 20 1 8 0) b = (true, empty) ∧
  AllEqual (mkEntry 7 1 2 10 20 1 8 0) b = (false, b) ∧
  PromiscEqual (mkEntry 7 98 99 10 20 1 3 0) b = (true, empty) ∧
  LinkEqual (mkEntry 7 98 99 10 20 1 3 0) b = (false, b) ∧
  LinkEqual (mkEntry 7 1 2 10 20 55 8 0) b = (true, empty) ∧
  PromiscEqual (mkEntry 7 1 2 10 20 55 8 0) b = (false, b).
Proof. by repeat split. Qed.

(** Only the earliest of two matching entries is erased. *)
Example first_match_only :
  AllEqual (sample 2 1 0)
    (mkBuffer [sample 1 1 9; sample 2 1 3; sample 2 1 4] 50 9) =
  (true, mkBuffer [sample 1 1 9; sample 2 1 4] 50 9).
Proof. reflexivity. Qed.

(** C1.  Each reconciliation function succeeds exactly when some buffered
    entry agrees with the probe on the fields of its channel: all six for
    [AllEqual]; all but [segsLeft] for [NetworkEqual]; source, destination,
    [segsLeft] and [ackId] for [PromiscEqual]; source, destination, our
    address and next hop for [LinkEqual].  The fields outside the channel's
    set are not compared.  A successful call removes the earliest such
    entry and nothing else; a failed call leaves the state as it was. *)
Theorem C1_reconciliation (entry : DsrMaintainBuffEntry) (b : DsrMaintainBuffer) :
  ((AllEqual entry b).1 = true ↔
     ∃ i, i ∈ m_maintainBuffer b ∧ agree_all entry i) ∧
  ((NetworkEqual entry b).1 = true ↔
     ∃ i, i ∈ m_maintainBuffer b ∧ agree_network entry i) ∧
  ((PromiscEqual entry b).1 = true ↔
     ∃ i, i ∈ m_maintainBuffer b ∧ agree_promisc entry i) ∧
  ((LinkEqual entry b).1 = true ↔
     ∃ i, i ∈ m_maintainBuffer b ∧ agree_link entry i) ∧
  first_match_removed (agree_all entry) b (AllEqual entry b) ∧
  first_match_removed (agree_network entry) b (NetworkEqual entry b) ∧
  first_match_removed (agree_promisc entry) b (PromiscEqual entry b) ∧
  first_match_removed (agree_link entry) b (LinkEqual entry b).
Proof.
  pose proof (erase_match_spec _ _ b (AllEqual_cond_agree entry)) as [? ?].
  pose proof (erase_match_spec _ _ b (NetworkEqual_cond_agree entry)) as [? ?].
  pose proof (erase_match_spec _ _ b (PromiscEqual_cond_agree entry)) as [? ?].
  pose proof (erase_match_spec _ _ b (LinkEqual_cond_agree entry)) as [? ?].
  unfold AllEqual, NetworkEqual, PromiscEqual, LinkEqual. tauto.
Qed.

(** ** Expiry and purge *)

Lemma IsExpired_true now e : IsExpired now e = true ↔ (m_expire e < now)%Z.
Proof.
  unfold IsExpired, IsStrictlyNegative, GetExpireTime.
  rewrite Z.ltb_lt. lia.
Qed.

Lemma IsExpired_false now e : IsExpired now e = false ↔ (now ≤ m_expire e)%Z.
Proof.
  unfold IsExpired, IsStrictlyNegative, GetExpireTime.
  rewrite Z.ltb_ge. lia.
Qed.

Lemma Purge_elem_of now b e :
  e ∈ m_maintainBuffer (Purge now b) ↔
  e ∈ m_maintainBuffer b ∧ (now ≤ m_expire e)%Z.
Proof. simpl. by rewrite remove_if_elem_of, IsExpired_false. Qed.

Lemma Purge_Purge now b : Purge now (Purge now b) = Purge now b.
Proof. unfold Purge, with_entries; simpl. by rewrite remove_if_idemp. Qed.

Lemma Purge_live now b :
  Forall (λ e, IsExpired now e = false) (m_maintainBuffer b) → Purge now b = b.
Proof.
  intros H. unfold Purge. rewrite remove_if_id by done. apply with_entries_same.
Qed.

(** ** Every operation only takes entries out, [Enqueue] apart *)

Lemma shrinks_refl b : shrinks b b.
Proof. by repeat split. Qed.

Lemma shrinks_with_entries b v :
  v `sublist_of` m_maintainBuffer b → shrinks b (with_entries b v).
Proof. by repeat split. Qed.

Lemma shrinks_trans b1 b2 b3 : shrinks b1 b2 → shrinks b2 b3 → shrinks b1 b3.
Proof.
  intros (? & ? & ?) (? & ? & ?). repeat split; [congruence .. |].
  by etrans.
Qed.

Lemma shrinks_capacity b b' : capacity_ok b → shrinks b b' → bounded_as b b'.
Proof.
  unfold capacity_ok. intros Hb (Hm & Ht & Hs). repeat split; [done .. |].
  unfold capacity_ok. apply sublist_length in Hs. rewrite Hm. lia.
Qed.

Lemma erase_first_sublist {A} (c : A → bool) v x r :
  erase_first c v = Some (x, r) → r `sublist_of` v.
Proof.
  intros (v1 & v2 & -> & -> & _)%erase_first_Some.
  apply sublist_app; [done | by constructor].
Qed.

Lemma Purge_shrinks now b : shrinks b (Purge now b).
Proof. apply shrinks_with_entries, remove_if_sublist. Qed.

Lemma GetSize_shrinks now b : shrinks b (GetSize now b).2.
Proof. apply Purge_shrinks. Qed.

Lemma DropPacketWithNextHop_shrinks now nextHop b :
  shrinks b (DropPacketWithNextHop now nextHop b).
Proof.
  eapply shrinks_trans; [apply (Purge_shrinks now) |].
  apply shrinks_with_entries, remove_if_sublist.
Qed.

Lemma Dequeue_shrinks now nextHop entry b :
  shrinks b (Dequeue now nextHop entry b).2.
Proof.
  unfold Dequeue.
  destruct (erase_first _ _) as [[i v]|] eqn:E; simpl.
  - eapply shrinks_trans; [apply (Purge_shrinks now) |].
    by eapply shrinks_with_entries, erase_first_sublist.
  - apply Purge_shrinks.
Qed.

Lemma erase_match_shrinks c b : shrinks b (erase_match c b).2.
Proof.
  unfold erase_match.
  destruct (erase_first _ _) as [[i v]|] eqn:E; simpl.
  - by eapply shrinks_with_entries, erase_first_sublist.
  - apply shrinks_refl.
Qed.

(** The three ways out of [Enqueue]. *)
Lemma Enqueue_cases now entry b :
  let v := remove_if (IsExpired now) (m_maintainBuffer b) in
  let entry' := SetExpireTime (m_maintainBufferTimeout b) now entry in
  Enqueue now entry b =
    if any_of (SameEntry entry) v then Some (false, entry, with_entries b v)
    else if (m_maxLen b <=? N.of_nat (length v))%N then
      match v with
      | [] => None
      | _ :: v' => Some (true, entry', with_entries b (v' ++ [entry']))
      end
    else Some (true, entry', with_entries b (v ++ [entry'])).
Proof.
  unfold Enqueue; simpl.
  destruct (any_of _ _); [done |].
  destruct (_ <=? _)%N; [| done].
  by destruct (remove_if _ _).
Qed.

(** With a capacity of at least one, [Enqueue] is defined. *)
Lemma Enqueue_defined now entry b :
  (1 ≤ m_maxLen b)%N → is_Some (Enqueue now entry b).
Proof.
  intros Hm. rewrite Enqueue_cases; simpl.
  destruct (any_of _ _); [done |].
  destruct (_ <=? _)%N eqn:Hle; [| done].
  destruct (remove_if _ _); [| done].
  apply N.leb_le in Hle. simpl in Hle. lia.
Qed.

Lemma Enqueue_bounded now entry b ok entry' b' :
  capacity_ok b → Enqueue now entry b = Some (ok, entry', b') →
  bounded_as b b'.
Proof.
  intros Hb. rewrite Enqueue_cases; simpl.
  pose proof (remove_if_length (IsExpired now) (m_maintainBuffer b)) as Hlen.
  unfold capacity_ok in Hb.
  destruct (any_of _ _).
  { intros [= <- <- <-]. repeat split. unfold capacity_ok; simpl. lia. }
  destruct (_ <=? _)%N eqn:Hle.
  - destruct (remove_if _ _) as [|a v'] eqn:Hv; [done |].
    intros [= <- <- <-]. repeat split. unfold capacity_ok; simpl.
    rewrite length_app; simpl in *. lia.
  - intros [= <- <- <-]. repeat split. unfold capacity_ok; simpl.
    apply N.leb_gt in Hle. rewrite length_app; simpl. lia.
Qed.

(** ** Capacity eviction *)

Lemma agree_all_key x i : agree_all x i ↔ full_key i = full_key x.
Proof.
  unfold agree_all, full_key. split.
  - intros (? & ? & ? & ? & ? & ?). congruence.
  - intros [= ? ? ? ? ? ?]. by repeat split.
Qed.

Lemma full_key_SetExpireTime exp now e :
  full_key (SetExpireTime exp now e) = full_key e.
Proof. done. Qed.

Lemma SameEntry_false_key x i :
  SameEntry x i = false ↔ full_key i ≠ full_key x.
Proof.
  rewrite <- agree_all_key, <- SameEntry_agree.
  destruct (SameEntry x i); split; congruence.
Qed.

(** At capacity the front entry goes, expired or not, when the entries
    behind it are live. *)
Lemma Enqueue_evicts_front now x b old rest :
  m_maintainBuffer b = old :: rest →
  N.of_nat (length (old :: rest)) = m_maxLen b →
  Forall (λ e, IsExpired now e = false) rest →
  Forall (λ i, ¬ agree_all x i) rest →
  (IsExpired now old = false → ¬ agree_all x old) →
  let x' := SetExpireTime (m_maintainBufferTimeout b) now x in
  Enqueue now x b = Some (true, x', with_entries b (rest ++ [x'])).
Proof.
  intros Hv Hlen Hlive Hrest Hold x'. rewrite Enqueue_cases; simpl.
  rewrite Hv; simpl. rewrite (remove_if_id _ rest) by done.
  assert (any_of (SameEntry x) rest = false) as Hno.
  { apply any_of_false. eapply Forall_impl; [exact Hrest |].
    intros i Hi; simpl in Hi. rewrite <- SameEntry_agree in Hi.
    by destruct (SameEntry x i). }
  destruct (IsExpired now old) eqn:Hexp; simpl.
  - rewrite Hno. simpl in Hlen.
    destruct (_ <=? _)%N eqn:Hle; [apply N.leb_le in Hle; lia | done].
  - specialize (Hold eq_refl). rewrite <- SameEntry_agree in Hold.
    destruct (SameEntry x old); [done |]. rewrite Hno.
    destruct (_ <=? _)%N eqn:Hle; [done |].
    apply N.leb_gt in Hle. simpl in *. lia.
Qed.

(** A batch enqueued behind at most one older entry [hd] and a live
    [body]: every entry is accepted, [body] and the batch stay, and [hd]
    is gone at the latest when the capacity is reached. *)
Lemma enqueue_all_live timeout maxLen pending : ∀ hd body,
  length hd ≤ 1 →
  (N.of_nat (length body + length pending) ≤ maxLen)%N →
  NoDup (full_key <$> (hd ++ body ++ pending.*2)) →
  Forall (λ e, Forall (λ te, (te.1 ≤ m_expire e)%Z) pending) body →
  stays_live timeout pending →
  ∃ hd', (hd' = [] ∨ hd' = hd) ∧
    enqueue_all pending (mkBuffer (hd ++ body) maxLen timeout) =
      Some (replicate (length pending) true,
            mkBuffer (hd' ++ body ++ (stamp timeout <$> pending))
                     maxLen timeout) ∧
    (pending ≠ [] → N.of_nat (length body + length pending) = maxLen →
     hd' = []).
Proof.
  induction pending as [|[t x] rest IH]; intros hd body Hhd Hlen Hnd Hbody Hlive.
  { exists hd. simpl. rewrite app_nil_r. split; [by right | by split]. }
  destruct Hlive as [Hx Hrest].
  set (x' := SetExpireTime timeout t x).
  (* the body survives the purge *)
  assert (remove_if (IsExpired t) body = body) as Hpb.
  { apply remove_if_id. eapply Forall_impl; [exact Hbody |].
    intros e He; simpl in He. apply IsExpired_false.
    by inversion He. }
  (* no buffered entry has the key of [x] *)
  assert (Forall (λ i, SameEntry x i = false) (hd ++ body)) as Hfresh.
  { apply Forall_forall. intros i Hi. apply SameEntry_false_key.
    intros Hk. rewrite !fmap_app, app_assoc in Hnd.
    apply NoDup_app in Hnd as (_ & Hnd & _).
    apply (Hnd (full_key i)).
    - rewrite <- fmap_app. by apply list_elem_of_fmap_2.
    - rewrite Hk. simpl. by left. }
  (* the keys stay distinct once [x] has joined the body *)
  assert (∀ h, h = [] ∨ h = hd →
            NoDup (full_key <$> (h ++ (body ++ [x']) ++ rest.*2))) as Hnd'.
  { intros h Hh.
    assert (NoDup (full_key <$> (hd ++ (body ++ [x']) ++ rest.*2))) as H.
    { rewrite <- (assoc_L (++) body).
      rewrite !fmap_app in Hnd |- *. exact Hnd. }
    destruct Hh as [-> | ->]; [| done].
    rewrite fmap_app in H. by apply NoDup_app in H as (_ & _ & H). }
  (* the new body is live for the rest of the batch *)
  assert (Forall (λ e, Forall (λ te, (te.1 ≤ m_expire e)%Z) rest)
            (body ++ [x'])) as Hbody'.
  { apply Forall_app. split.
    - eapply Forall_impl; [exact Hbody |]. intros e He; simpl in He.
      by inversion He.
    - constructor; [| constructor].
      eapply Forall_impl; [exact Hx |]. intros te Hte; simpl in *. lia. }
  assert (∀ hd1, (hd1 = [] ∨ hd1 = hd) →
            remove_if (IsExpired t) hd = hd1 →
            ∃ hd', (hd' = [] ∨ hd' = hd) ∧
              enqueue_all ((t, x) :: rest) (mkBuffer (hd ++ body) maxLen timeout) =
                Some (replicate (length ((t, x) :: rest)) true,
                      mkBuffer (hd' ++ body ++ (stamp timeout <$> (t, x) :: rest))
                               maxLen timeout) ∧
              ((t, x) :: rest ≠ [] →
               N.of_nat (length body + length ((t, x) :: rest)) = maxLen →
               hd' = [])) as Hstep.
  { intros hd1 Hhd1 Hp.
    assert (any_of (SameEntry x) (hd1 ++ body) = false) as Hany.
    { apply any_of_false. destruct Hhd1 as [-> | ->]; [| done].
      by apply Forall_app in Hfresh as [_ ?]. }
    assert (length hd1 ≤ 1) as Hhd1len by (destruct Hhd1 as [-> | ->]; simpl; lia).
    simpl enqueue_all. rewrite Enqueue_cases. simpl.
    rewrite remove_if_app, Hpb, Hp, Hany. fold x'.
    destruct (_ <=? _)%N eqn:Hle.
    - (* at capacity: [hd1] is the front and is evicted *)
      apply N.leb_le in Hle. rewrite length_app in Hle. simpl in Hlen.
      destruct hd1 as [|h hd1]; [simpl in Hle; lia |]. simpl.
      destruct (IH [] (body ++ [x'])) as (hd' & Hhd' & Heq & _);
        [simpl; lia | rewrite length_app; simpl; lia | apply Hnd'; by left
        | done | done |].
      assert (hd1 = []) as -> by (destruct hd1; [done | simpl in *; lia]).
      assert (hd' = []) as -> by (by destruct Hhd').
      exists []. split; [by left |]. split; [| done].
      unfold with_entries; simpl in *. rewrite Heq.
      by rewrite <- (assoc_L (++) body).
    - apply N.leb_gt in Hle. rewrite length_app in Hle.
      destruct (IH hd1 (body ++ [x'])) as (hd' & Hhd' & Heq & Hfull);
        [done | rewrite length_app; simpl in *; lia | by apply Hnd'
        | done | done |].
      exists hd'. split.
      { destruct Hhd' as [-> | ->]; [by left | done]. }
      split.
      + unfold with_entries; simpl.
        rewrite <- (assoc_L (++) hd1 body), Heq.
        by rewrite <- (assoc_L (++) body).
      + intros _ Hcap. simpl in Hcap.
        destruct rest as [|te rest'].
        * simpl in *. destruct Hhd' as [-> | ->]; [done |].
          destruct hd1; [done | simpl in *; lia].
        * apply Hfull; [done |]. rewrite length_app; simpl in *. lia. }
  destruct hd as [|h [|??]]; [| | simpl in Hhd; lia].
  - apply (Hstep []); [by left | done].
  - simpl remove_if in Hstep.
    destruct (IsExpired t h); [apply (Hstep []) | apply (Hstep [h])]; auto.
Qed.

(** With a capacity of zero the first [Enqueue] erases the front of an
    empty vector. *)
Example enqueue_zero_capacity :
  Enqueue 0 (sample 1 1 0) (mkBuffer [] 0 5) = None.
Proof. reflexivity. Qed.

(** C2 (as amended).  A buffer within its capacity stays within it after
    every operation (for [Enqueue], which is defined when the capacity is
    at least one).  When [Enqueue] accepts an entry while the vector holds
    [maxLen] entries of which all but possibly the front one are live, the
    front entry is the one that goes, whether it has expired or not, and
    the others stay.  So [maxLen + 1] entries with distinct keys, enqueued
    into an empty buffer so that none but possibly the first expires in
    between, are all accepted and leave exactly the last [maxLen] of them. *)
Theorem C2_capacity_eviction :
  (∀ (now : Time) (nextHop : Ipv4Address) (entry : DsrMaintainBuffEntry)
     (b : DsrMaintainBuffer), capacity_ok b →
     bounded_as b (GetSize now b).2 ∧
     bounded_as b (Purge now b) ∧
     bounded_as b (DropPacketWithNextHop now nextHop b) ∧
     bounded_as b (Dequeue now nextHop entry b).2 ∧
     bounded_as b (Find nextHop b).2 ∧
     bounded_as b (AllEqual entry b).2 ∧
     bounded_as b (NetworkEqual entry b).2 ∧
     bounded_as b (PromiscEqual entry b).2 ∧
     bounded_as b (LinkEqual entry b).2 ∧
     ((1 ≤ m_maxLen b)%N →
      ∃ ok entry' b', Enqueue now entry b = Some (ok, entry', b') ∧
                      bounded_as b b')) ∧
  (∀ (now : Time) (x : DsrMaintainBuffEntry) (b : DsrMaintainBuffer)
     (old : DsrMaintainBuffEntry) (rest : list DsrMaintainBuffEntry),
     m_maintainBuffer b = old :: rest →
     N.of_nat (length (old :: rest)) = m_maxLen b →
     Forall (λ e, IsExpired now e = false) rest →
     Forall (λ i, ¬ agree_all x i) rest →
     (IsExpired now old = false → ¬ agree_all x old) →
     let x' := SetExpireTime (m_maintainBufferTimeout b) now x in
     Enqueue now x b = Some (true, x', with_entries b (rest ++ [x']))) ∧
  (∀ (timeout : Time) (maxLen : N) (first : Time * DsrMaintainBuffEntry)
     (others : list (Time * DsrMaintainBuffEntry)),
     (1 ≤ maxLen)%N →
     N.of_nat (length others) = maxLen →
     NoDup (full_key <$> (first :: others).*2) →
     stays_live timeout others →
     enqueue_all (first :: others) (mkBuffer [] maxLen timeout) =
       Some (replicate (S (length others)) true,
             mkBuffer (stamp timeout <$> others) maxLen timeout) ∧
     N.of_nat (length (stamp timeout <$> others)) = maxLen ∧
     ∀ e, e ∈ stamp timeout <$> others → full_key e ≠ full_key first.2).
Proof.
  split; [| split].
  - intros now nextHop entry b Hb.
    assert (∀ b', shrinks b b' → bounded_as b b') as Hs
      by (intros; by apply shrinks_capacity).
    split; [apply Hs, GetSize_shrinks |].
    split; [apply Hs, Purge_shrinks |].
    split; [apply Hs, DropPacketWithNextHop_shrinks |].
    split; [apply Hs, Dequeue_shrinks |].
    split; [apply Hs, shrinks_refl |].
    split; [apply Hs, erase_match_shrinks |].
    split; [apply Hs, erase_match_shrinks |].
    split; [apply Hs, erase_match_shrinks |].
    split; [apply Hs, erase_match_shrinks |].
    intros Hm.
    destruct (Enqueue_defined now entry b Hm) as [[[ok entry'] b'] E].
    exists ok, entry', b'. split; [done |]. by eapply Enqueue_bounded.
  - intros now x b old rest Hv Hlen Hlive Hrest Hold.
    by apply (Enqueue_evicts_front now x b old rest).
  - intros timeout maxLen [t0 x0] others Hm Hlen Hnd Hlive.
    split; [| split].
    + simpl enqueue_all. rewrite Enqueue_cases; simpl.
      destruct (_ <=? _)%N eqn:Hle; [apply N.leb_le in Hle; simpl in Hle; lia |].
      destruct (enqueue_all_live timeout maxLen others
                  [SetExpireTime timeout t0 x0] [])
        as (hd' & _ & Heq & Hfull).
      * simpl; lia.
      * simpl; lia.
      * simpl. exact Hnd.
      * constructor.
      * done.
      * unfold with_entries; simpl in *. rewrite Heq.
        rewrite Hfull; [done | | simpl; lia].
        intros ->. simpl in Hlen. lia.
    + by rewrite length_fmap.
    + intros e (te & -> & Hte)%list_elem_of_fmap Hk.
      simpl in Hnd. apply NoDup_cons in Hnd as [Hnot _].
      apply Hnot. unfold stamp in Hk. rewrite full_key_SetExpireTime in Hk.
      simpl in Hk. rewrite <- Hk.
      apply list_elem_of_fmap_2. by apply (list_elem_of_fmap_2 snd).
Qed.

(** Capacity two: the expired front entry goes and the live one stays; a
    batch of three leaves the last two. *)
Lemma C2_capacity_eviction_witness :
  let b := mkBuffer [sample 1 1 0; sample 2 2 100] 2 10 in
  let x' := SetExpireTime 10 5 (sample 3 3 0) in
  let batch := [(0, sample 1 1 0); (1, sample 2 2 0); (2, sample 3 3 0)]%Z in
  (capacity_ok b ∧
   ∃ ok entry' b', Enqueue 5 (sample 3 3 0) b = Some (ok, entry', b') ∧
                   bounded_as b b') ∧
  (IsExpired 5 (sample 1 1 0) = true ∧
   Enqueue 5 (sample 3 3 0) b =
     Some (true, x', with_entries b ([sample 2 2 100] ++ [x']))) ∧
  (NoDup (full_key <$> batch.*2) ∧
   enqueue_all batch (mkBuffer [] 2 10) =
     Some ([true; true; true],
           mkBuffer [sample 2 2 11; sample 3 3 12] 2 10)).
Proof.
  intros b x' batch.
  destruct C2_capacity_eviction as (HA & HB & HC).
  assert (capacity_ok b) as Hb by (unfold capacity_ok; simpl; lia).
  assert (NoDup (full_key <$> batch.*2)) as Hnd.
  { apply (bool_decide_unpack _). vm_compute. exact I. }
  split; [| split].
  - split; [done |].
    apply (HA 5%Z 3%N (sample 3 3 0) b Hb). simpl; lia.
  - split; [done |].
    apply (HB 5%Z (sample 3 3 0) b (sample 1 1 0) [sample 2 2 100]).
    + done.
    + done.
    + by repeat constructor.
    + repeat constructor. intros (_ & [=] & _).
    + intros [=].
  - split; [done |].
    apply (HC 10%Z 2%N (0%Z, sample 1 1 0)
              [(1, sample 2 2 0); (2, sample 3 3 0)]%Z).
    + lia.
    + done.
    + exact Hnd.
    + simpl. repeat constructor; simpl; lia.
Defined.

(** Capacity two, timeout one: three entries with distinct keys, the third
    enqueued after the first two have expired, leave one entry, not two. *)
Lemma C2_counterexample :
  let batch := [(0, sample 1 1 0); (0, sample 2 2 0); (5, sample 3 3 0)]%Z in
  NoDup (full_key <$> batch.*2) ∧
  ∃ b', enqueue_all batch (mkBuffer [] 2 1) = Some ([true; true; true], b') ∧
        m_maintainBuffer b' = [sample 3 3 6] ∧
        N.of_nat (length (m_maintainBuffer b')) ≠ m_maxLen b'.
Proof.
  split.
  - apply (bool_decide_unpack _). vm_compute. exact I.
  - eexists. split; [reflexivity |]. split; [reflexivity |]. simpl. lia.
Qed.

(** ** Duplicates *)

(** C3 (as amended).  Enqueueing an entry whose full-tuple key is the key
    of a buffered entry that is live returns failure and leaves the
    caller's entry alone; the buffer changes only by the purge that
    [Enqueue] runs first, so it is untouched when nothing has expired, and
    [GetSize] reports the same count before and after. *)
Theorem C3_duplicate_rejected (now : Time) (entry i : DsrMaintainBuffEntry)
    (b : DsrMaintainBuffer) :
  i ∈ m_maintainBuffer b → IsExpired now i = false → agree_all entry i →
  Enqueue now entry b = Some (false, entry, Purge now b) ∧
  (GetSize now (Purge now b)).1 = (GetSize now b).1 ∧
  (Forall (λ e, IsExpired now e = false) (m_maintainBuffer b) →
   Enqueue now entry b = Some (false, entry, b)).
Proof.
  intros Hi Hlive Hagree.
  assert (Enqueue now entry b = Some (false, entry, Purge now b)) as HE.
  { rewrite Enqueue_cases; simpl.
    replace (any_of _ _) with true; [done |].
    symmetry. apply any_of_true. exists i. split.
    - by apply remove_if_elem_of.
    - by apply SameEntry_agree. }
  split; [done |]. split.
  - unfold GetSize. by rewrite Purge_Purge.
  - intros Hall. by rewrite HE, Purge_live.
Qed.

(** Nothing has expired: the duplicate is rejected and the state is the
    same. *)
Lemma C3_duplicate_rejected_witness :
  let b := mkBuffer [sample 1 1 60; sample 2 2 100] 5 10 in
  Enqueue 50 (sample 2 2 0) b = Some (false, sample 2 2 0, b) ∧
  (GetSize 50 b).1 = 2%N.
Proof.
  intros b.
  destruct (C3_duplicate_rejected 50 (sample 2 2 0) (sample 2 2 100) b)
    as (_ & _ & H).
  - apply elem_of_cons. right. by left.
  - reflexivity.
  - by repeat split.
  - split; [| reflexivity]. apply H. by repeat constructor.
Defined.

(** The duplicate of a live entry is rejected, and the expired entry in
    front of it is gone from the vector all the same. *)
Lemma C3_counterexample :
  let b := mkBuffer [sample 1 1 0; sample 2 2 100] 5 10 in
  sample 2 2 100 ∈ m_maintainBuffer b ∧
  IsExpired 50 (sample 2 2 100) = false ∧
  agree_all (sample 2 2 0) (sample 2 2 100) ∧
  ∃ b', Enqueue 50 (sample 2 2 0) b = Some (false, sample 2 2 0, b') ∧
        m_maintainBuffer b' = [sample 2 2 100] ∧ b' ≠ b.
Proof.
  intros b. split; [apply elem_of_cons; right; by left |].
  split; [reflexivity |]. split; [by repeat split |].
  eexists. split; [reflexivity |]. split; [reflexivity |]. intros [=].
Qed.

(** ** Dequeue *)

Lemma Dequeue_found now nextHop entry b out b' :
  Dequeue now nextHop entry b = (true, out, b') →
  ∃ v1 v2, m_maintainBuffer (Purge now b) = v1 ++ out :: v2 ∧
           m_nextHop out = nextHop ∧
           Forall (λ i, m_nextHop i ≠ nextHop) v1 ∧
           b' = with_entries b (v1 ++ v2).
Proof.
  unfold Dequeue.
  destruct (erase_first _ _) as [[i v]|] eqn:E; [| done].
  apply erase_first_Some in E as (v1 & v2 & Hv & -> & Hi & Hv1).
  apply N.eqb_eq in Hi. intros [= <- <-].
  exists v1, v2. repeat split; [done .. |].
  eapply Forall_impl; [exact Hv1 |]. intros y Hy; simpl in Hy.
  by apply N.eqb_neq.
Qed.

Lemma Dequeue_not_found now nextHop entry b out b' :
  Dequeue now nextHop entry b = (false, out, b') →
  out = entry ∧ b' = Purge now b ∧
  Forall (λ i, m_nextHop i ≠ nextHop) (m_maintainBuffer (Purge now b)).
Proof.
  unfold Dequeue.
  destruct (erase_first _ _) as [[i v]|] eqn:E; [done |].
  apply erase_first_None in E. intros [= <- <-]. repeat split.
  eapply Forall_impl; [exact E |]. intros y Hy; simpl in Hy.
  by apply N.eqb_neq.
Qed.

(** Whether [Dequeue] finds an entry. *)
Lemma Dequeue_flag now nextHop entry b :
  (Dequeue now nextHop entry b).1.1 = true ↔
  ∃ i, i ∈ m_maintainBuffer (Purge now b) ∧ m_nextHop i = nextHop.
Proof.
  unfold Dequeue.
  destruct (erase_first _ _) as [[i v]|] eqn:E; simpl.
  - apply erase_first_Some in E as (v1 & v2 & Hv & _ & Hi & _).
    split; [| done]. intros _. exists i. split; [| by apply N.eqb_eq].
    simpl in Hv. rewrite Hv. apply elem_of_app. right. by left.
  - apply erase_first_None in E. split; [done |]. intros (i & Hi & Hn).
    rewrite Forall_forall in E. specialize (E i Hi). simpl in E.
    apply N.eqb_neq in E. done.
Qed.

Lemma Forall_sublist_of {A} (P : A → Prop) (l1 l2 : list A) :
  l1 `sublist_of` l2 → Forall P l2 → Forall P l1.
Proof.
  intros Hs. rewrite !Forall_forall. intros H x Hx.
  apply H. by eapply elem_of_sublist.
Qed.

Lemma Purge_all_live now b :
  Forall (λ e, IsExpired now e = false) (m_maintainBuffer (Purge now b)).
Proof. apply remove_if_Forall. Qed.

(** What [Dequeue] leaves behind is purged. *)
Lemma Dequeue_all_live now nextHop entry b :
  Forall (λ e, IsExpired now e = false)
    (m_maintainBuffer (Dequeue now nextHop entry b).2).
Proof.
  unfold Dequeue.
  destruct (erase_first _ _) as [[i v]|] eqn:E; simpl.
  - eapply Forall_sublist_of; [by eapply erase_first_sublist |].
    apply remove_if_Forall.
  - apply remove_if_Forall.
Qed.

(** C4.  [Dequeue] purges and then takes out the earliest entry with the
    given next hop: the entries before it have another next hop, and all
    the other entries stay in place.  Without such an entry it reports
    not-found, leaves the caller's entry alone and only purges.  A
    [Dequeue] repeated at once finds an entry exactly when another entry
    with that next hop is still buffered. *)
Theorem C4_dequeue (now : Time) (nextHop : Ipv4Address)
    (entry : DsrMaintainBuffEntry) (b : DsrMaintainBuffer) :
  let '(found, out, b') := Dequeue now nextHop entry b in
  (if found then
     ∃ v1 v2, m_maintainBuffer (Purge now b) = v1 ++ out :: v2 ∧
              m_nextHop out = nextHop ∧
              Forall (λ i, m_nextHop i ≠ nextHop) v1 ∧
              b' = with_entries b (v1 ++ v2)
   else
     out = entry ∧ b' = Purge now b ∧
     Forall (λ i, m_nextHop i ≠ nextHop) (m_maintainBuffer (Purge now b))) ∧
  ((Dequeue now nextHop out b').1.1 = true ↔
   ∃ i, i ∈ m_maintainBuffer b' ∧ m_nextHop i = nextHop).
Proof.
  pose proof (Dequeue_all_live now nextHop entry b) as Hlive.
  destruct (Dequeue now nextHop entry b) as [[found out] b'] eqn:E.
  split.
  - destruct found.
    + by apply Dequeue_found in E.
    + by apply Dequeue_not_found in E.
  - rewrite Dequeue_flag. simpl in Hlive. by rewrite Purge_live.
Qed.

(** The scenario of the specification: five entries for next hops 1 to 5;
    [Dequeue] for next hop 3 returns the third and leaves four, after which
    [Find] does not see next hop 3; dropping next hop 1 leaves three. *)
Example dequeue_scenario :
  let b := mkBuffer [sample 1 1 9; sample 2 2 9; sample 3 3 9; sample 4 4 9;
                     sample 5 5 9] 50 9 in
  let r := Dequeue 0 3 (sample 0 0 0) b in
  r.1 = (true, sample 3 3 9) ∧
  (GetSize 0 r.2).1 = 4%N ∧
  (Find 3 r.2).1 = false ∧
  m_maintainBuffer (DropPacketWithNextHop 0 1 r.2) =
    [sample 2 2 9; sample 4 4 9; sample 5 5 9].
Proof. by repeat split. Qed.

(** ** Expiry as the operations see it *)

(** Within the capacity [GetSize] does not wrap. *)
Lemma GetSize_count now b :
  capacity_ok b → (m_maxLen b < 2 ^ 32)%N →
  (GetSize now b).1 = N.of_nat (length (m_maintainBuffer (Purge now b))).
Proof.
  unfold capacity_ok, GetSize, to_uint32. intros Hb Hm. cbn [fst].
  pose proof (remove_if_length (IsExpired now) (m_maintainBuffer b)) as Hlen.
  apply N.mod_small. cbn [Purge with_entries m_maintainBuffer]. lia.
Qed.

Lemma Enqueue_Purge now entry b :
  Enqueue now entry (Purge now b) = Enqueue now entry b.
Proof. unfold Enqueue. by rewrite Purge_Purge. Qed.

Lemma Dequeue_Purge now nextHop entry b :
  Dequeue now nextHop entry (Purge now b) = Dequeue now nextHop entry b.
Proof. unfold Dequeue. by rewrite Purge_Purge. Qed.

Lemma DropPacketWithNextHop_Purge now nextHop b :
  DropPacketWithNextHop now nextHop (Purge now b) =
  DropPacketWithNextHop now nextHop b.
Proof. unfold DropPacketWithNextHop. by rewrite Purge_Purge. Qed.

Lemma Find_flag nextHop b :
  (Find nextHop b).1 = true ↔
  ∃ i, i ∈ m_maintainBuffer b ∧ m_nextHop i = nextHop.
Proof.
  unfold Find; simpl. rewrite any_of_true.
  split; intros (i & Hi & Hn); exists i; (split; [done |]);
    by apply N.eqb_eq.
Qed.

(** C5.  An entry whose deadline lies strictly before the current time is
    removed by [GetSize], which returns the number of entries that remain;
    after that [Find] on its next hop is false when no remaining entry has
    that next hop.  [Enqueue], [Dequeue] and [DropPacketWithNextHop] act on
    the purged buffer as well, which does not hold the entry. *)
Theorem C5_expired_entry_removed (now : Time) (e : DsrMaintainBuffEntry)
    (b : DsrMaintainBuffer) :
  e ∈ m_maintainBuffer b → (m_expire e < now)%Z →
  capacity_ok b → (m_maxLen b < 2 ^ 32)%N →
  let '(n, b') := GetSize now b in
  (e ∉ m_maintainBuffer b') ∧
  (∀ i, i ∈ m_maintainBuffer b' ↔
        i ∈ m_maintainBuffer b ∧ (now ≤ m_expire i)%Z) ∧
  n = N.of_nat (length (m_maintainBuffer b')) ∧
  length (m_maintainBuffer b') < length (m_maintainBuffer b) ∧
  (Forall (λ i, m_nextHop i ≠ m_nextHop e) (m_maintainBuffer b') →
   (Find (m_nextHop e) b').1 = false) ∧
  (e ∉ m_maintainBuffer (Purge now b)) ∧
  (∀ x, Enqueue now x b = Enqueue now x (Purge now b)) ∧
  (∀ nextHop x,
     Dequeue now nextHop x b = Dequeue now nextHop x (Purge now b)) ∧
  (∀ nextHop, DropPacketWithNextHop now nextHop b =
              DropPacketWithNextHop now nextHop (Purge now b)).
Proof.
  intros He Hexp Hb Hm.
  pose proof (GetSize_count now b Hb Hm) as Hn.
  destruct (GetSize now b) as [n b'] eqn:E.
  assert (b' = Purge now b) as -> by (by inversion E).
  assert (e ∉ m_maintainBuffer (Purge now b)) as Hout.
  { rewrite Purge_elem_of. lia. }
  split; [done |]. split; [intros i; apply Purge_elem_of |].
  split; [done |]. split.
  { clear -He Hexp. simpl. apply IsExpired_true in Hexp.
    induction (m_maintainBuffer b) as [|a v IH]; [inversion He |].
    pose proof (remove_if_length (IsExpired now) v).
    apply elem_of_cons in He as [<- | He]; simpl.
    - rewrite Hexp. lia.
    - specialize (IH He). destruct (IsExpired now a); simpl; lia. }
  split.
  { intros Hno. destruct (Find _ _).1 eqn:F; [| done].
    apply Find_flag in F as (i & Hi & Hnh).
    rewrite Forall_forall in Hno. by destruct (Hno i Hi). }
  split; [done |].
  split; [intros; by rewrite Enqueue_Purge |].
  split; [intros; by rewrite Dequeue_Purge |].
  intros; by rewrite DropPacketWithNextHop_Purge.
Qed.

Lemma C5_expired_entry_removed_witness :
  let b := mkBuffer [sample 1 1 5; sample 2 2 100] 50 5 in
  GetSize 10 b = (1%N, mkBuffer [sample 2 2 100] 50 5) ∧
  (Find 1 (GetSize 10 b).2).1 = false.
Proof.
  intros b.
  pose proof (C5_expired_entry_removed 10 (sample 1 1 5) b) as H.
  simpl in H. split; [reflexivity |].
  apply H.
  - by left.
  - lia.
  - unfold capacity_ok; simpl; lia.
  - lia.
  - repeat constructor. intros [=].
Defined.

(** An entry enqueued at time 0 with a timeout of 5: still counted at time
    5, purged at time 6, after which [Find] does not see its next hop. *)
Example expiry_scenario :
  let b0 := mkBuffer [] 50 5 in
  let b1 := mkBuffer [sample 4 1 5] 50 5 in
  Enqueue 0 (sample 4 1 0) b0 = Some (true, sample 4 1 5, b1) ∧
  GetSize 5 b1 = (1%N, b1) ∧
  GetSize 6 b1 = (0%N, b0) ∧
  (Find 4 b1).1 = true ∧
  (Find 4 (GetSize 6 b1).2).1 = false.
Proof. by repeat split. Qed.

(** ** Dropping a next hop *)

Lemma remove_if_filter {A} (c : A → bool) (P : A → Prop)
    `{!∀ x, Decision (P x)} (v : list A) :
  (∀ x, c x = false ↔ P x) → remove_if c v = filter P v.
Proof.
  intros Hc. induction v as [|a v IH]; simpl; [done |].
  destruct (c a) eqn:Ha.
  - rewrite filter_cons_False; [done |]. rewrite <- Hc. congruence.
  - rewrite filter_cons_True; [by rewrite IH |]. by apply Hc.
Qed.

(** C6.  [DropPacketWithNextHop] purges and then keeps exactly the entries
    whose next hop differs from the argument, unchanged and in their
    order; every entry with that next hop is gone. *)
Theorem C6_drop_by_next_hop (now : Time) (nextHop : Ipv4Address)
    (b : DsrMaintainBuffer) :
  let b' := DropPacketWithNextHop now nextHop b in
  m_maintainBuffer b' =
    filter (λ e, m_nextHop e ≠ nextHop) (m_maintainBuffer (Purge now b)) ∧
  (∀ e, e ∈ m_maintainBuffer b' ↔
        e ∈ m_maintainBuffer (Purge now b) ∧ m_nextHop e ≠ nextHop) ∧
  m_maintainBuffer b' `sublist_of` m_maintainBuffer (Purge now b) ∧
  m_maxLen b' = m_maxLen b ∧
  m_maintainBufferTimeout b' = m_maintainBufferTimeout b.
Proof.
  intros b'.
  assert (m_maintainBuffer b' =
          filter (λ e, m_nextHop e ≠ nextHop) (m_maintainBuffer (Purge now b)))
    as Heq.
  { apply remove_if_filter. intros x. unfold GetNextHop. apply N.eqb_neq. }
  split; [done |]. split; [| split; [| done]].
  - intros e. rewrite Heq, list_elem_of_filter. tauto.
  - rewrite Heq. apply sublist_filter.
Qed.

(** ** The expiry test is strict *)

(** C9.  [Purge] takes out exactly the entries whose expiry measure is
    strictly negative.  An entry whose deadline is the current time has
    measure zero: it stays where it is and [GetSize] counts it. *)
Theorem C9_purge_strict (now : Time) (e : DsrMaintainBuffEntry)
    (v1 v2 : list DsrMaintainBuffEntry) (b : DsrMaintainBuffer) :
  m_maintainBuffer b = v1 ++ e :: v2 → m_expire e = now →
  capacity_ok b → (m_maxLen b < 2 ^ 32)%N →
  (∀ i, i ∈ m_maintainBuffer (Purge now b) ↔
        i ∈ m_maintainBuffer b ∧ ¬ (GetExpireTime now i < 0)%Z) ∧
  GetExpireTime now e = 0%Z ∧
  m_maintainBuffer (Purge now b) =
    remove_if (IsExpired now) v1 ++ e :: remove_if (IsExpired now) v2 ∧
  (GetSize now b).1 =
    N.of_nat (length (remove_if (IsExpired now) v1) + 1 +
              length (remove_if (IsExpired now) v2)) ∧
  e ∈ m_maintainBuffer (GetSize now b).2.
Proof.
  intros Hv He Hb Hm.
  assert (IsExpired now e = false) as Hlive by (apply IsExpired_false; lia).
  assert (m_maintainBuffer (Purge now b) =
          remove_if (IsExpired now) v1 ++ e :: remove_if (IsExpired now) v2)
    as Hp.
  { simpl. rewrite Hv, remove_if_app. simpl. by rewrite Hlive. }
  split.
  { intros i. rewrite Purge_elem_of. unfold GetExpireTime. split.
    - intros [? ?]. split; [done | lia].
    - intros [? ?]. split; [done | lia]. }
  split; [unfold GetExpireTime; lia |].
  split; [done |]. split.
  - rewrite GetSize_count by done. rewrite Hp, length_app. simpl.
    f_equal. lia.
  - unfold GetSize. cbn [snd]. rewrite Hp. apply elem_of_app. right. by left.
Qed.

Lemma C9_purge_strict_witness :
  let b := mkBuffer [sample 1 1 9; sample 2 2 10; sample 3 3 11] 50 5 in
  m_maintainBuffer (Purge 10 b) = [sample 2 2 10; sample 3 3 11] ∧
  (GetSize 10 b).1 = 2%N.
Proof.
  intros b.
  destruct (C9_purge_strict 10 (sample 2 2 10) [sample 1 1 9] [sample 3 3 11] b)
    as (_ & _ & Hp & Hn & _).
  - reflexivity.
  - reflexivity.
  - unfold capacity_ok; simpl; lia.
  - simpl; lia.
  - split; [exact Hp | exact Hn].
Defined.

(** ** What a call of [Enqueue] that returns has done *)

Lemma Enqueue_Some now entry b ok entry' b' :
  Enqueue now entry b = Some (ok, entry', b') →
  ∃ v, v `sublist_of` m_maintainBuffer (Purge now b) ∧
       m_maintainBuffer b' = v ++ (if ok then [entry'] else []) ∧
       m_maxLen b' = m_maxLen b ∧
       m_maintainBufferTimeout b' = m_maintainBufferTimeout b ∧
       (ok = true ↔
        Forall (λ i, ¬ agree_all entry i) (m_maintainBuffer (Purge now b))) ∧
       entry' = (if ok then SetExpireTime (m_maintainBufferTimeout b) now entry
                 else entry).
Proof.
  rewrite Enqueue_cases; simpl.
  set (v := remove_if (IsExpired now) (m_maintainBuffer b)).
  assert (any_of (SameEntry entry) v = false ↔
          Forall (λ i, ¬ agree_all entry i) v) as Hdup.
  { rewrite any_of_false. apply Forall_cond_false, SameEntry_agree. }
  destruct (any_of (SameEntry entry) v) eqn:Hany.
  { intros [= <- <- <-]. exists v. simpl. rewrite app_nil_r.
    repeat split; try done. intros H. apply Hdup in H. done. }
  assert (true = true ↔ Forall (λ i, ¬ agree_all entry i) v) as Hok.
  { split; [intros _; by apply Hdup | done]. }
  destruct (_ <=? _)%N.
  - destruct v as [|a v'] eqn:Hv; [done |].
    intros [= <- <- <-]. exists v'. simpl.
    repeat split; try done; try apply Hok; try by constructor.
  - intros [= <- <- <-]. exists v. simpl.
    repeat split; try done; apply Hok; done.
Qed.

(** ** Which operations purge *)

Lemma erase_match_does_not_purge now c P b :
  (∀ i, c i = true ↔ P i) → does_not_purge now P b (erase_match c b).
Proof.
  intros Hc. destruct (erase_match_spec c P b Hc) as [Hfirst Hflag].
  unfold does_not_purge, first_match_removed in *.
  destruct (erase_match c b) as [ok b'] eqn:E; simpl in *.
  destruct ok.
  - destruct Hfirst as (v1 & x & v2 & Hv & Hx & Hv1 & ->). simpl.
    rewrite Hv. split; [rewrite !length_app; simpl; lia |].
    intros i Hi _. split; [done |]. intros Hn.
    apply elem_of_app in Hi as [Hi | Hi]; apply elem_of_app; [by left |].
    apply elem_of_cons in Hi as [-> | Hi]; [done | by right].
  - destruct Hfirst as [Hall ->]. split; [lia |].
    intros i Hi _. split; [| done]. intros HP.
    rewrite Forall_forall in Hall. by destruct (Hall i Hi).
Qed.

(** [Enqueue] in terms of the purged vector: the duplicate scan, the
    capacity test, the eviction and the append all work on it. *)
Lemma Enqueue_on_purged now entry b :
  (1 ≤ m_maxLen b)%N →
  let p := m_maintainBuffer (Purge now b) in
  ∃ ok entry' b',
    Enqueue now entry b = Some (ok, entry', b') ∧
    (ok = true ↔ Forall (λ i, ¬ agree_all entry i) p) ∧
    entry' = (if ok then SetExpireTime (m_maintainBufferTimeout b) now entry
              else entry) ∧
    b' = with_entries b
           (if ok then
              (if (m_maxLen b <=? N.of_nat (length p))%N then drop 1 p else p)
              ++ [entry']
            else p).
Proof.
  intros Hm p. subst p. cbn [Purge with_entries m_maintainBuffer].
  rewrite Enqueue_cases. cbn zeta.
  set (v := remove_if (IsExpired now) (m_maintainBuffer b)).
  assert (any_of (SameEntry entry) v = false ↔
          Forall (λ i, ¬ agree_all entry i) v) as Hdup.
  { rewrite any_of_false. apply Forall_cond_false, SameEntry_agree. }
  destruct (any_of (SameEntry entry) v).
  { exists false, entry, (with_entries b v). split; [done |].
    split; [| done]. split; [done |]. intros H. by apply Hdup in H. }
  assert (true = true ↔ Forall (λ i, ¬ agree_all entry i) v) as Hok.
  { split; [intros _; by apply Hdup | done]. }
  destruct (_ <=? _)%N eqn:Hle.
  - destruct v as [|a v'] eqn:Hv.
    { apply N.leb_le in Hle. simpl in Hle. lia. }
    eexists true, _, _. split; [done |]. split; [exact Hok |]. by split.
  - eexists true, _, _. split; [done |]. split; [exact Hok |]. by split.
Qed.

(** C7.  [Find] leaves the state as it is and answers whether some entry,
    expired or not, has the given next hop.  The four reconciliation
    functions do not purge either: expired entries are matched like the
    others, and the ones that are not matched stay.  [GetSize],
    [DropPacketWithNextHop] and [Enqueue] purge before they act: what they
    leave behind, the entry that [Enqueue] has just appended apart, is
    live, and each of them acts on the purged vector.  [GetSize] counts
    the purged vector and leaves it as the state;
    [DropPacketWithNextHop] leaves the entries of the purged vector that
    have another next hop; [Enqueue] scans the purged vector for a
    duplicate, leaves it as the state when it finds one, and otherwise
    tests the capacity against it, drops its front entry when the capacity
    is reached and appends the entry; each of the three gives the same
    result on the buffer and on the purged buffer. *)
Theorem C7_who_purges (now : Time) (b : DsrMaintainBuffer) :
  (∀ nextHop : Ipv4Address,
     (Find nextHop b).2 = b ∧
     ((Find nextHop b).1 = true ↔
      ∃ i, i ∈ m_maintainBuffer b ∧ m_nextHop i = nextHop)) ∧
  (∀ i, i ∈ m_maintainBuffer b → IsExpired now i = true →
        (Find (m_nextHop i) b).1 = true) ∧
  (∀ entry : DsrMaintainBuffEntry,
     does_not_purge now (agree_all entry) b (AllEqual entry b) ∧
     does_not_purge now (agree_network entry) b (NetworkEqual entry b) ∧
     does_not_purge now (agree_promisc entry) b (PromiscEqual entry b) ∧
     does_not_purge now (agree_link entry) b (LinkEqual entry b)) ∧
  Forall (λ e, IsExpired now e = false) (m_maintainBuffer (GetSize now b).2) ∧
  (∀ nextHop : Ipv4Address,
     Forall (λ e, IsExpired now e = false)
       (m_maintainBuffer (DropPacketWithNextHop now nextHop b))) ∧
  (∀ entry : DsrMaintainBuffEntry, (1 ≤ m_maxLen b)%N →
     ∃ ok entry' b' v,
       Enqueue now entry b = Some (ok, entry', b') ∧
       m_maintainBuffer b' = v ++ (if ok then [entry'] else []) ∧
       Forall (λ e, IsExpired now e = false) v) ∧
  GetSize now b =
    (to_uint32 (N.of_nat (length (m_maintainBuffer (Purge now b)))),
     Purge now b) ∧
  (∀ nextHop : Ipv4Address,
     DropPacketWithNextHop now nextHop b =
       with_entries b
         (filter (λ e, m_nextHop e ≠ nextHop)
            (m_maintainBuffer (Purge now b)))) ∧
  (∀ entry : DsrMaintainBuffEntry, (1 ≤ m_maxLen b)%N →
     let p := m_maintainBuffer (Purge now b) in
     ∃ ok entry' b',
       Enqueue now entry b = Some (ok, entry', b') ∧
       (ok = true ↔ Forall (λ i, ¬ agree_all entry i) p) ∧
       entry' = (if ok
                 then SetExpireTime (m_maintainBufferTimeout b) now entry
                 else entry) ∧
       b' = with_entries b
              (if ok then
                 (if (m_maxLen b <=? N.of_nat (length p))%N
                  then drop 1 p else p) ++ [entry']
               else p)) ∧
  GetSize now b = GetSize now (Purge now b) ∧
  (∀ nextHop : Ipv4Address,
     DropPacketWithNextHop now nextHop b =
     DropPacketWithNextHop now nextHop (Purge now b)) ∧
  (∀ entry : DsrMaintainBuffEntry,
     Enqueue now entry b = Enqueue now entry (Purge now b)).
Proof.
  split.
  { intros nextHop. split; [done | apply Find_flag]. }
  split.
  { intros i Hi _. apply Find_flag. by exists i. }
  split.
  { intros entry. unfold AllEqual, NetworkEqual, PromiscEqual, LinkEqual.
    split; [| split; [| split]]; apply erase_match_does_not_purge.
    - apply AllEqual_cond_agree.
    - apply NetworkEqual_cond_agree.
    - apply PromiscEqual_cond_agree.
    - apply LinkEqual_cond_agree. }
  split.
  { apply Purge_all_live. }
  split.
  { intros nextHop.
    eapply Forall_sublist_of; [apply remove_if_sublist |].
    apply Purge_all_live. }
  split.
  { intros entry Hm.
    destruct (Enqueue_defined now entry b Hm) as [[[ok entry'] b'] E].
    destruct (Enqueue_Some _ _ _ _ _ _ E) as (v & Hv & Hb' & _).
    exists ok, entry', b', v. split; [done |]. split; [done |].
    eapply Forall_sublist_of; [exact Hv |]. apply Purge_all_live. }
  split.
  { done. }
  split.
  { intros nextHop. unfold DropPacketWithNextHop.
    cbn [Purge with_entries m_maintainBuffer m_maxLen m_maintainBufferTimeout].
    f_equal. apply remove_if_filter. intros x. unfold GetNextHop.
    apply N.eqb_neq. }
  split.
  { intros entry Hm. by apply Enqueue_on_purged. }
  split.
  { unfold GetSize. by rewrite Purge_Purge. }
  split.
  { intros nextHop. by rewrite DropPacketWithNextHop_Purge. }
  intros entry. by rewrite Enqueue_Purge.
Qed.

Lemma C7_who_purges_witness :
  let b := mkBuffer [sample 1 1 5; sample 2 2 100] 50 5 in
  (Find 1 b).1 = true ∧
  AllEqual (sample 1 1 0) b = (true, mkBuffer [sample 2 2 100] 50 5) ∧
  m_maintainBuffer (AllEqual (sample 2 2 0) b).2 = [sample 1 1 5] ∧
  (∃ ok entry' b' v,
     Enqueue 10 (sample 3 3 0) b = Some (ok, entry', b') ∧
     m_maintainBuffer b' = v ++ (if ok then [entry'] else []) ∧
     Forall (λ e, IsExpired 10 e = false) v) ∧
  GetSize 10 b = (1%N, mkBuffer [sample 2 2 100] 50 5) ∧
  Enqueue 10 (sample 1 1 0) b =
    Some (true, sample 1 1 15,
          mkBuffer [sample 2 2 100; sample 1 1 15] 50 5) ∧
  ∃ ok entry' b',
    Enqueue 10 (sample 1 1 0) b = Some (ok, entry', b') ∧
    (ok = true ↔
     Forall (λ i, ¬ agree_all (sample 1 1 0) i) [sample 2 2 100]) ∧
    entry' = (if ok then SetExpireTime 5 10 (sample 1 1 0)
              else sample 1 1 0) ∧
    b' = with_entries b
           (if ok then [sample 2 2 100] ++ [entry'] else [sample 2 2 100]).
Proof.
  intros b.
  destruct (C7_who_purges 10 b)
    as (_ & HF & _ & _ & _ & HE & HG & _ & HP & _).
  split; [| split; [| split; [| split; [| split; [| split]]]]].
  - apply (HF (sample 1 1 5)); [by left | reflexivity].
  - reflexivity.
  - reflexivity.
  - apply HE. simpl; lia.
  - exact HG.
  - reflexivity.
  - apply (HP (sample 1 1 0)). simpl; lia.
Defined.

(** ** The deadline of an entry *)

(** C8.  [Enqueue] stores the accepted entry with the deadline
    [now + timeout] (and the caller's other fields); every other entry of
    the vector after an [Enqueue], and every entry after any other
    operation, is an entry of the vector before the call, unchanged and in
    its order.  So no operation rewrites the deadline of a buffered entry. *)
Theorem C8_expire_set_once (now : Time) (b : DsrMaintainBuffer) :
  (∀ entry ok entry' b', Enqueue now entry b = Some (ok, entry', b') →
     ∃ v, v `sublist_of` m_maintainBuffer b ∧
          m_maintainBuffer b' = v ++ (if ok then [entry'] else []) ∧
          (ok = true →
           m_expire entry' = (now + m_maintainBufferTimeout b)%Z ∧
           full_key entry' = full_key entry ∧
           m_packet entry' = m_packet entry)) ∧
  (∀ nextHop entry,
     shrinks b (Dequeue now nextHop entry b).2 ∧
     ((Dequeue now nextHop entry b).1.1 = true →
      (Dequeue now nextHop entry b).1.2 ∈ m_maintainBuffer b)) ∧
  (∀ nextHop, (Find nextHop b).2 = b) ∧
  (∀ nextHop, shrinks b (DropPacketWithNextHop now nextHop b)) ∧
  (∀ entry, shrinks b (AllEqual entry b).2 ∧
            shrinks b (NetworkEqual entry b).2 ∧
            shrinks b (PromiscEqual entry b).2 ∧
            shrinks b (LinkEqual entry b).2) ∧
  shrinks b (Purge now b) ∧
  shrinks b (GetSize now b).2.
Proof.
  split; [| split; [| split; [| split; [| split; [| split]]]]].
  - intros entry ok entry' b' E.
    apply Enqueue_Some in E as (v & Hv & Hb' & _ & _ & _ & ->).
    exists v. split; [| split; [done |]].
    + etrans; [exact Hv | apply remove_if_sublist].
    + intros ->. simpl. repeat split. lia.
  - intros nextHop entry. split; [apply Dequeue_shrinks |].
    destruct (Dequeue now nextHop entry b) as [[found out] b'] eqn:E.
    simpl. intros ->.
    apply Dequeue_found in E as (v1 & v2 & Hv & _).
    assert (out ∈ m_maintainBuffer (Purge now b)) as Hin.
    { rewrite Hv. apply elem_of_app. right. by left. }
    by apply Purge_elem_of in Hin as [? _].
  - done.
  - intros. apply DropPacketWithNextHop_shrinks.
  - intros. repeat split; apply erase_match_shrinks.
  - apply Purge_shrinks.
  - apply GetSize_shrinks.
Qed.

Lemma C8_expire_set_once_witness :
  let b := mkBuffer [sample 1 1 5; sample 2 2 100] 50 5 in
  ∃ v, v `sublist_of` m_maintainBuffer b ∧
       [sample 2 2 100; sample 3 3 15] = v ++ [sample 3 3 15] ∧
       m_expire (sample 3 3 15) = (10 + 5)%Z.
Proof.
  intros b.
  destruct (C8_expire_set_once 10 b) as (HE & _).
  destruct (HE (sample 3 3 0) true (sample 3 3 15)
               (mkBuffer [sample 2 2 100; sample 3 3 15] 50 5) eq_refl)
    as (v & Hs & Hv & Hx).
  exists v. split; [done |]. split; [done |]. by apply Hx.
Defined.

(** ** The caller's entry *)

(** C10.  [Enqueue] works on the caller's entry.  When it accepts the
    entry (no purged-buffer entry has its key) the caller's entry comes
    back with its deadline overwritten by [now + timeout], and the copy at
    the back of the vector carries that deadline; when it rejects the
    entry as a duplicate the caller's entry comes back as it was. *)
Theorem C10_caller_entry (now : Time) (entry : DsrMaintainBuffEntry)
    (b : DsrMaintainBuffer) :
  (1 ≤ m_maxLen b)%N →
  ∃ ok entry' b',
    Enqueue now entry b = Some (ok, entry', b') ∧
    (ok = true ↔
     Forall (λ i, ¬ agree_all entry i) (m_maintainBuffer (Purge now b))) ∧
    (ok = true →
     entry' = SetExpireTime (m_maintainBufferTimeout b) now entry ∧
     m_expire entry' = (now + m_maintainBufferTimeout b)%Z ∧
     last (m_maintainBuffer b') = Some entry') ∧
    (ok = false → entry' = entry ∧ b' = Purge now b).
Proof.
  intros Hm.
  destruct (Enqueue_defined now entry b Hm) as [[[ok entry'] b'] E].
  exists ok, entry', b'. split; [done |].
  destruct (Enqueue_Some _ _ _ _ _ _ E) as (v & _ & Hb' & _ & _ & Hok & He).
  split; [done |]. split.
  - intros ->. split; [done |]. split; [rewrite He; simpl; lia |].
    rewrite Hb'. apply last_snoc.
  - intros ->. split; [done |].
    rewrite Enqueue_cases in E. simpl in E.
    destruct (any_of _ _); [by inversion E |].
    destruct (_ <=? _)%N; [| done].
    by destruct (remove_if _ _).
Qed.

Lemma C10_caller_entry_witness :
  let b := mkBuffer [sample 1 1 5; sample 2 2 100] 50 5 in
  Enqueue 10 (sample 3 3 0) b =
    Some (true, sample 3 3 15, mkBuffer [sample 2 2 100; sample 3 3 15] 50 5) ∧
  Enqueue 10 (sample 2 2 0) b =
    Some (false, sample 2 2 0, mkBuffer [sample 2 2 100] 50 5) ∧
  ∃ ok entry' b', Enqueue 10 (sample 3 3 0) b = Some (ok, entry', b') ∧
                  (ok = true → m_expire entry' = 15%Z).
Proof.
  intros b. split; [reflexivity |]. split; [reflexivity |].
  destruct (C10_caller_entry 10 (sample 3 3 0) b) as (ok & e' & b' & E & _ & H & _).
  - simpl; lia.
  - exists ok, e', b'. split; [exact E |]. intros Hok. by apply H.
Defined.

(** ** Invariants along a run of calls *)

Lemma shrinks_keys_distinct b b' :
  shrinks b b' → keys_distinct b → keys_distinct b'.
Proof.
  intros (_ & _ & Hs) Hk. unfold keys_distinct.
  eapply sublist_NoDup; [exact Hk |]. by apply (fmap_sublist full_key).
Qed.

Lemma Enqueue_keys_distinct now entry b ok entry' b' :
  keys_distinct b → Enqueue now entry b = Some (ok, entry', b') →
  keys_distinct b'.
Proof.
  intros Hk E.
  apply Enqueue_Some in E as (v & Hv & Hb' & _ & _ & Hok & He).
  assert (NoDup (full_key <$> v)) as Hnv.
  { eapply sublist_NoDup; [exact Hk |].
    apply (fmap_sublist full_key).
    etrans; [exact Hv | apply remove_if_sublist]. }
  unfold keys_distinct. rewrite Hb'. destruct ok.
  - rewrite fmap_app. apply NoDup_app. split; [done |]. split.
    + intros k Hkv Hke. simpl in Hke. apply list_elem_of_singleton in Hke.
      subst entry'. rewrite full_key_SetExpireTime in Hke. subst k.
      apply list_elem_of_fmap in Hkv as (i & Hki & Hi).
      assert (Forall (λ i, ¬ agree_all entry i) (m_maintainBuffer (Purge now b)))
        as Hall by (by apply Hok).
      rewrite Forall_forall in Hall.
      apply (Hall i); [by eapply elem_of_sublist |].
      by apply agree_all_key.
    + apply NoDup_singleton.
  - by rewrite app_nil_r.
Qed.

(** Every public call either shrinks the state or is an [Enqueue]. *)
Lemma step_shrinks_or_enqueue c b :
  (∃ now entry, c = CallEnqueue now entry) ∨
  (∃ b', step c b = Some b' ∧ shrinks b b').
Proof.
  destruct c; simpl; [right | left; by eexists _, _ | right ..];
    (eexists; split; [reflexivity |]).
  - apply GetSize_shrinks.
  - apply DropPacketWithNextHop_shrinks.
  - apply Dequeue_shrinks.
  - apply shrinks_refl.
  - apply erase_match_shrinks.
  - apply erase_match_shrinks.
  - apply erase_match_shrinks.
  - apply erase_match_shrinks.
Qed.

Lemma step_keeps_invariants c b :
  (1 ≤ m_maxLen b)%N → capacity_ok b → keys_distinct b →
  ∃ b', step c b = Some b' ∧ bounded_as b b' ∧ keys_distinct b'.
Proof.
  intros Hm Hb Hk.
  destruct (step_shrinks_or_enqueue c b) as [(now & entry & ->) | (b' & E & Hs)].
  - simpl. destruct (Enqueue_defined now entry b Hm) as [[[ok entry'] b'] E].
    rewrite E. exists b'. split; [done |]. split.
    + by eapply Enqueue_bounded.
    + by eapply Enqueue_keys_distinct.
  - exists b'. split; [done |]. split.
    + by apply shrinks_capacity.
    + by eapply shrinks_keys_distinct.
Qed.

(** X1.  On a buffer with a capacity of at least one that is within its
    capacity and holds no two entries with the same full-tuple key, every
    sequence of public calls, at whatever times, is defined (the erase of
    the front of an empty vector is never reached) and ends in a state
    with the same capacity and timeout that is again within the capacity
    and without two entries of the same key. *)
Theorem run_keeps_invariants (cs : list call) (b : DsrMaintainBuffer) :
  (1 ≤ m_maxLen b)%N → capacity_ok b → keys_distinct b →
  ∃ b', run cs b = Some b' ∧ bounded_as b b' ∧ keys_distinct b'.
Proof.
  revert b. induction cs as [|c cs IH]; intros b Hm Hb Hk.
  - exists b. by repeat split.
  - destruct (step_keeps_invariants c b Hm Hb Hk) as (b1 & E & (Hm1 & Ht1 & Hb1) & Hk1).
    destruct (IH b1) as (b' & E' & (Hm' & Ht' & Hb') & Hk'); [by rewrite Hm1 | done | done |].
    exists b'. simpl. rewrite E. split; [done |]. split; [| done].
    repeat split; [congruence | congruence | done].
Qed.

Lemma run_keeps_invariants_witness :
  let cs := [CallEnqueue 0 (sample 1 1 0); CallEnqueue 1 (sample 1 1 0);
             CallEnqueue 2 (sample 2 2 0); CallEnqueue 3 (sample 3 3 0);
             CallLinkEqual (sample 3 9 0); CallGetSize 12] in
  run cs (mkBuffer [] 2 10) = Some (mkBuffer [sample 2 2 12] 2 10) ∧
  ∃ b', run cs (mkBuffer [] 2 10) = Some b' ∧
        bounded_as (mkBuffer [] 2 10) b' ∧ keys_distinct b'.
Proof.
  intros cs. split; [reflexivity |].
  apply run_keeps_invariants.
  - simpl; lia.
  - unfold capacity_ok; simpl; lia.
  - apply NoDup_nil_2.
Defined.

(** ** The order of the deadlines *)

Lemma StronglySorted_sublist {A} (R : relation A) (l1 l2 : list A) :
  l1 `sublist_of` l2 → StronglySorted R l2 → StronglySorted R l1.
Proof.
  induction 1 as [|x l1 l2 Hs IH|x l1 l2 Hs IH]; intros Hl2.
  - constructor.
  - apply StronglySorted_cons in Hl2 as [Hx Hl2].
    apply StronglySorted_cons. split; [| by apply IH].
    by eapply Forall_sublist_of.
  - apply StronglySorted_cons in Hl2 as [_ Hl2]. by apply IH.
Qed.

Lemma shrinks_aged_order t t' b b' :
  shrinks b b' → (t ≤ t')%Z → aged_order t b → aged_order t' b'.
Proof.
  intros (_ & Ht & Hs) Hle [Hsorted Hbound]. split.
  - by eapply StronglySorted_sublist.
  - rewrite Ht. eapply Forall_sublist_of; [exact Hs |].
    eapply Forall_impl; [exact Hbound |]. intros e He; simpl in He. lia.
Qed.

Lemma Enqueue_aged_order t now entry b ok entry' b' :
  (t ≤ now)%Z → aged_order t b →
  Enqueue now entry b = Some (ok, entry', b') → aged_order now b'.
Proof.
  intros Hle [Hsorted Hbound] E.
  apply Enqueue_Some in E as (v & Hv & Hb' & _ & Ht & _ & He).
  assert (v `sublist_of` m_maintainBuffer b) as Hvb
    by (etrans; [exact Hv | apply remove_if_sublist]).
  assert (Forall (λ e, (m_expire e ≤ now + m_maintainBufferTimeout b)%Z) v)
    as Hbv.
  { eapply Forall_sublist_of; [exact Hvb |].
    eapply Forall_impl; [exact Hbound |]. intros e H; simpl in H. lia. }
  unfold aged_order. rewrite Hb', Ht. destruct ok.
  - subst entry'. split.
    + apply StronglySorted_app_2.
      * intros x1 x2 Hx1 ->%list_elem_of_singleton.
        rewrite Forall_forall in Hbv. specialize (Hbv x1 Hx1).
        unfold not_newer; simpl. lia.
      * by eapply StronglySorted_sublist.
      * repeat constructor.
    + apply Forall_app. split; [done |].
      constructor; [simpl; lia | constructor].
  - rewrite app_nil_r. split; [by eapply StronglySorted_sublist | done].
Qed.

(** X2.  When the clock does not run backwards, a buffer with a capacity of
    at least one that is in the order of its deadlines, none of them later
    than the current time plus the timeout, stays so through every
    sequence of public calls: the front entry is always one with the
    earliest deadline. *)
Theorem run_keeps_aged_order (cs : list call) (t : Time)
    (b : DsrMaintainBuffer) :
  (1 ≤ m_maxLen b)%N → aged_order t b → clock_monotone t cs →
  ∃ b', run cs b = Some b' ∧ aged_order (clock_after t cs) b'.
Proof.
  revert t b. induction cs as [|c cs IH]; intros t b Hm Ha Hc.
  - by exists b.
  - simpl in Hc. simpl clock_after.
    destruct (step_shrinks_or_enqueue c b)
      as [(now & entry & ->) | (b1 & E & Hs)].
    + simpl in *. destruct Hc as [Hle Hc].
      destruct (Enqueue_defined now entry b Hm) as [[[ok entry'] b1] E].
      rewrite E.
      pose proof (Enqueue_Some _ _ _ _ _ _ E) as (_ & _ & _ & Hm1 & _).
      apply (IH now b1); [by rewrite Hm1 | | done].
      by eapply Enqueue_aged_order.
    + simpl run. rewrite E.
      assert (1 ≤ m_maxLen b1)%N as Hm1 by (destruct Hs as [-> _]; done).
      destruct (call_time c) as [now|].
      * destruct Hc as [Hle Hc]. apply (IH now b1); [done | | done].
        by eapply shrinks_aged_order.
      * apply (IH t b1); [done | | done].
        eapply shrinks_aged_order; [done | | done]. lia.
Qed.

Lemma run_keeps_aged_order_witness :
  let cs := [CallEnqueue 0 (sample 1 1 0); CallEnqueue 4 (sample 2 2 0);
             CallFind 1; CallEnqueue 4 (sample 3 3 0)] in
  run cs (mkBuffer [] 2 10) =
    Some (mkBuffer [sample 2 2 14; sample 3 3 14] 2 10) ∧
  ∃ b', run cs (mkBuffer [] 2 10) = Some b' ∧ aged_order 4 b'.
Proof.
  intros cs. split; [reflexivity |].
  apply (run_keeps_aged_order cs 0%Z).
  - simpl; lia.
  - split; constructor.
  - simpl. lia.
Defined.

Lemma remove_if_expired_prefix now (v : list DsrMaintainBuffEntry) :
  StronglySorted not_newer v →
  ∃ k, remove_if (IsExpired now) v = drop k v ∧
       Forall (λ e, IsExpired now e = true) (take k v).
Proof.
  induction 1 as [|a v Hv IH Ha]; [by exists 0 |].
  simpl. destruct (IsExpired now a) eqn:Hexp.
  - destruct IH as (k & Hk & Hp). exists (S k). simpl.
    split; [done | by constructor].
  - exists 0. simpl. split; [| constructor]. f_equal.
    apply remove_if_id. eapply Forall_impl; [exact Ha |].
    intros e He; simpl in He. unfold not_newer in He.
    apply IsExpired_false in Hexp. apply IsExpired_false. lia.
Qed.

(** X3.  On a vector in the order of its deadlines [Purge] removes a
    prefix: the first [k] entries, all past their deadline, go and the
    others, none past its deadline, stay. *)
Theorem Purge_removes_prefix (now : Time) (b : DsrMaintainBuffer) :
  StronglySorted not_newer (m_maintainBuffer b) →
  ∃ k, m_maintainBuffer (Purge now b) = drop k (m_maintainBuffer b) ∧
       Forall (λ e, (m_expire e < now)%Z) (take k (m_maintainBuffer b)) ∧
       Forall (λ e, (now ≤ m_expire e)%Z) (drop k (m_maintainBuffer b)).
Proof.
  intros Hs. destruct (remove_if_expired_prefix now _ Hs) as (k & Hk & Hp).
  exists k. split; [done |]. split.
  - eapply Forall_impl; [exact Hp |]. intros e. apply IsExpired_true.
  - rewrite <- Hk. eapply Forall_impl; [apply remove_if_Forall |].
    intros e. apply IsExpired_false.
Qed.

Lemma Purge_removes_prefix_witness :
  ∃ k, m_maintainBuffer
         (Purge 6 (mkBuffer [sample 1 1 3; sample 2 2 5; sample 3 3 8] 9 5)) =
       drop k [sample 1 1 3; sample 2 2 5; sample 3 3 8] ∧
       Forall (λ e, (m_expire e < 6)%Z)
         (take k [sample 1 1 3; sample 2 2 5; sample 3 3 8]) ∧
       Forall (λ e, (6 ≤ m_expire e)%Z)
         (drop k [sample 1 1 3; sample 2 2 5; sample 3 3 8]).
Proof.
  apply (Purge_removes_prefix 6
           (mkBuffer [sample 1 1 3; sample 2 2 5; sample 3 3 8] 9 5)).
  simpl. repeat constructor; unfold not_newer; simpl; lia.
Defined.

(** X4.  On a vector in the order of its deadlines an accepted [Enqueue]
    takes entries from the front only: the new vector is a suffix of the
    old one followed by the new entry, and no entry that went (purged or
    evicted for capacity) has a later deadline than an entry that stayed.
    The capacity eviction drops "the most aged packet". *)
Theorem Enqueue_drops_most_aged (now : Time) (entry entry' : DsrMaintainBuffEntry)
    (b b' : DsrMaintainBuffer) :
  StronglySorted not_newer (m_maintainBuffer b) →
  Enqueue now entry b = Some (true, entry', b') →
  ∃ k, m_maintainBuffer b' = drop k (m_maintainBuffer b) ++ [entry'] ∧
       ∀ e1 e2, e1 ∈ take k (m_maintainBuffer b) →
                e2 ∈ drop k (m_maintainBuffer b) →
                (m_expire e1 ≤ m_expire e2)%Z.
Proof.
  intros Hs E.
  assert (∀ k e1 e2, e1 ∈ take k (m_maintainBuffer b) →
                     e2 ∈ drop k (m_maintainBuffer b) →
                     (m_expire e1 ≤ m_expire e2)%Z) as Hord.
  { intros k e1 e2 H1 H2. rewrite <- (take_drop k (m_maintainBuffer b)) in Hs.
    by apply (StronglySorted_app_1_elem_of _ _ _ e1 e2) in Hs. }
  destruct (remove_if_expired_prefix now _ Hs) as (k & Hk & _).
  rewrite Enqueue_cases in E. simpl in E. rewrite Hk in E.
  destruct (any_of _ _); [done |].
  destruct (_ <=? _)%N.
  - destruct (drop k (m_maintainBuffer b)) as [|a v'] eqn:Hd; [done |].
    injection E as <- <-. exists (S k). split; [| apply Hord].
    simpl. f_equal.
    replace (S k) with (k + 1) by lia. by rewrite <- drop_drop, Hd.
  - injection E as <- <-. exists k. split; [done | apply Hord].
Qed.

Lemma Enqueue_drops_most_aged_witness :
  let b := mkBuffer [sample 1 1 3; sample 2 2 8; sample 3 3 9] 2 5 in
  Enqueue 6 (sample 4 4 0) b =
    Some (true, sample 4 4 11, mkBuffer [sample 3 3 9; sample 4 4 11] 2 5) ∧
  ∃ k, [sample 3 3 9; sample 4 4 11] =
         drop k (m_maintainBuffer b) ++ [sample 4 4 11] ∧
       ∀ e1 e2, e1 ∈ take k (m_maintainBuffer b) →
                e2 ∈ drop k (m_maintainBuffer b) →
                (m_expire e1 ≤ m_expire e2)%Z.
Proof.
  intros b. split; [reflexivity |].
  apply (Enqueue_drops_most_aged 6 (sample 4 4 0) (sample 4 4 11) b
           (mkBuffer [sample 3 3 9; sample 4 4 11] 2 5)).
  - simpl. repeat constructor; unfold not_newer; simpl; lia.
  - reflexivity.
Defined.

(** ** How the operations compose *)

Lemma remove_if_expired_twice t1 t2 (v : list DsrMaintainBuffEntry) :
  remove_if (IsExpired t2) (remove_if (IsExpired t1) v) =
  remove_if (IsExpired (Z.max t1 t2)) v.
Proof.
  induction v as [|a v IH]; simpl; [done |].
  destruct (IsExpired t1 a) eqn:H1, (IsExpired t2 a) eqn:H2,
    (IsExpired (Z.max t1 t2) a) eqn:H3; simpl; rewrite ?H2, ?IH; try done;
    rewrite ?IsExpired_true, ?IsExpired_false in *; lia.
Qed.

Lemma Purge_twice_aux t1 t2 b :
  Purge t2 (Purge t1 b) = Purge (Z.max t1 t2) b ∧
  GetSize t2 (GetSize t1 b).2 = GetSize (Z.max t1 t2) b.
Proof.
  assert (Purge t2 (Purge t1 b) = Purge (Z.max t1 t2) b) as H.
  { unfold Purge, with_entries; simpl. by rewrite remove_if_expired_twice. }
  split; [done |]. unfold GetSize. cbn [snd]. by rewrite H.
Qed.

(** X5.  Purging at one time and then at another is purging once at the
    later of the two, in either order; the same holds for two calls of
    [GetSize], whose second result is the count at the later time. *)
Theorem Purge_twice (t1 t2 : Time) (b : DsrMaintainBuffer) :
  Purge t2 (Purge t1 b) = Purge (Z.max t1 t2) b ∧
  Purge t1 (Purge t2 b) = Purge t2 (Purge t1 b) ∧
  GetSize t2 (GetSize t1 b).2 = GetSize (Z.max t1 t2) b.
Proof.
  split; [apply Purge_twice_aux |]. split.
  - rewrite !(proj1 (Purge_twice_aux _ _ b)). by rewrite Z.max_comm.
  - apply Purge_twice_aux.
Qed.

(** X6.  [AllEqual] undoes an accepted [Enqueue]: called with the entry
    just enqueued (before or after its deadline was set) it succeeds and
    erases exactly the copy at the back, whatever else is buffered and
    whatever the time. *)
Theorem Enqueue_then_AllEqual (now : Time) (entry entry' : DsrMaintainBuffEntry)
    (b b' : DsrMaintainBuffer) :
  Enqueue now entry b = Some (true, entry', b') →
  ∃ v, m_maintainBuffer b' = v ++ [entry'] ∧
       AllEqual entry b' = (true, with_entries b' v) ∧
       AllEqual entry' b' = (true, with_entries b' v).
Proof.
  intros E.
  apply Enqueue_Some in E as (v & Hv & Hb' & _ & _ & Hok & He).
  exists v. split; [done |].
  assert (Forall (λ i, ¬ agree_all entry i) v) as Hfresh.
  { eapply Forall_sublist_of; [exact Hv |]. by apply Hok. }
  assert (∀ probe, full_key probe = full_key entry →
            AllEqual probe b' = (true, with_entries b' v)) as H.
  { intros probe Hp. unfold AllEqual, erase_match. rewrite Hb'.
    replace (erase_first (AllEqual_cond probe) (v ++ [entry']))
      with (Some (entry', v)); [done |].
    symmetry. apply erase_first_Some. exists v, [].
    split; [done |]. split; [by rewrite app_nil_r |]. split.
    - apply AllEqual_cond_agree, agree_all_key. subst entry'.
      by rewrite full_key_SetExpireTime.
    - apply (Forall_cond_false _ (agree_all probe));
        [apply AllEqual_cond_agree |].
      eapply Forall_impl; [exact Hfresh |]. intros i Hi; simpl in Hi.
      rewrite agree_all_key in *. congruence. }
  split; apply H; [done |]. subst entry'. apply full_key_SetExpireTime.
Qed.

Lemma Enqueue_then_AllEqual_witness :
  let b := mkBuffer [sample 1 1 5; sample 2 2 100] 50 5 in
  let b' := mkBuffer [sample 2 2 100; sample 3 3 15] 50 5 in
  ∃ v, m_maintainBuffer b' = v ++ [sample 3 3 15] ∧
       AllEqual (sample 3 3 0) b' = (true, with_entries b' v) ∧
       AllEqual (sample 3 3 15) b' = (true, with_entries b' v).
Proof.
  intros b b'.
  apply (Enqueue_then_AllEqual 10 (sample 3 3 0) (sample 3 3 15) b b').
  reflexivity.
Defined.

(** X7.  After an accepted [Enqueue] at time [now], a further [Enqueue] of
    the same entry at time [now2] is rejected exactly as long as the
    deadline has not passed ([now2 ≤ now + timeout]); after the deadline
    the key is accepted again. *)
Theorem Enqueue_again (now now2 : Time) (entry entry' : DsrMaintainBuffEntry)
    (b b' : DsrMaintainBuffer) :
  (1 ≤ m_maxLen b)%N →
  Enqueue now entry b = Some (true, entry', b') →
  ∃ ok2 entry2 b2,
    Enqueue now2 entry b' = Some (ok2, entry2, b2) ∧
    (ok2 = false ↔ (now2 ≤ now + m_maintainBufferTimeout b)%Z).
Proof.
  intros Hm E.
  apply Enqueue_Some in E as (v & Hv & Hb' & Hm' & _ & Hok & He).
  destruct (Enqueue_defined now2 entry b') as [[[ok2 entry2] b2] E2];
    [by rewrite Hm' |].
  exists ok2, entry2, b2. split; [done |].
  apply Enqueue_Some in E2 as (_ & _ & _ & _ & _ & Hok2 & _).
  assert (Forall (λ i, ¬ agree_all entry i) v) as Hfresh.
  { eapply Forall_sublist_of; [exact Hv |]. by apply Hok. }
  assert (agree_all entry entry') as Hself.
  { apply agree_all_key. subst entry'. apply full_key_SetExpireTime. }
  assert (m_expire entry' = (now + m_maintainBufferTimeout b)%Z) as Hd
    by (subst entry'; simpl; lia).
  simpl in Hok2. rewrite Hb', remove_if_app in Hok2. simpl in Hok2.
  destruct (IsExpired now2 entry') eqn:Hexp.
  - apply IsExpired_true in Hexp. split; [| lia]. intros ->.
    assert (false = true) as [=]. apply Hok2. rewrite app_nil_r.
    eapply Forall_sublist_of; [apply remove_if_sublist | done].
  - apply IsExpired_false in Hexp. split; [lia |]. intros _.
    destruct ok2; [| done].
    assert (Forall (λ i, ¬ agree_all entry i)
              (remove_if (IsExpired now2) v ++ [entry'])) as Hall
      by (by apply Hok2).
    apply Forall_app in Hall as [_ Hall]. by inversion Hall.
Qed.

Lemma Enqueue_again_witness :
  let b := mkBuffer [sample 1 1 5; sample 2 2 100] 50 5 in
  let b' := mkBuffer [sample 2 2 100; sample 3 3 15] 50 5 in
  Enqueue 15 (sample 3 3 0) b' = Some (false, sample 3 3 0, b') ∧
  Enqueue 16 (sample 3 3 0) b' =
    Some (true, sample 3 3 21, mkBuffer [sample 2 2 100; sample 3 3 21] 50 5) ∧
  ∃ ok2 entry2 b2,
    Enqueue 16 (sample 3 3 0) b' = Some (ok2, entry2, b2) ∧
    (ok2 = false ↔ (16 ≤ 10 + m_maintainBufferTimeout b)%Z).
Proof.
  intros b b'. split; [reflexivity |]. split; [reflexivity |].
  apply (Enqueue_again 10 16 (sample 3 3 0) (sample 3 3 15) b b').
  - simpl; lia.
  - reflexivity.
Defined.

Lemma DropPacketWithNextHop_entries now nextHop b :
  Forall (λ e, IsExpired now e = false ∧ m_nextHop e ≠ nextHop)
    (m_maintainBuffer (DropPacketWithNextHop now nextHop b)).
Proof.
  apply Forall_forall. intros e He. simpl in He.
  apply remove_if_elem_of in He as [He Hn].
  apply remove_if_elem_of in He as [_ He].
  split; [done | by apply N.eqb_neq].
Qed.

Lemma erase_match_none c b :
  Forall (λ i, c i = false) (m_maintainBuffer b) → erase_match c b = (false, b).
Proof.
  intros H. unfold erase_match.
  by rewrite (proj2 (erase_first_None c (m_maintainBuffer b)) H).
Qed.

(** X8.  Once [DropPacketWithNextHop] has run for a next hop, the buffer
    holds nothing for it: [Find] is false, a [Dequeue] at the same time
    reports not-found and changes nothing, a second drop changes nothing,
    and the three reconciliation functions that compare the next hop fail
    for every probe with that next hop. *)
Theorem DropPacketWithNextHop_then (now : Time) (nextHop : Ipv4Address)
    (b : DsrMaintainBuffer) :
  let b' := DropPacketWithNextHop now nextHop b in
  (Find nextHop b').1 = false ∧
  (∀ entry, Dequeue now nextHop entry b' = (false, entry, b')) ∧
  DropPacketWithNextHop now nextHop b' = b' ∧
  (∀ entry, m_nextHop entry = nextHop →
     AllEqual entry b' = (false, b') ∧
     NetworkEqual entry b' = (false, b') ∧
     LinkEqual entry b' = (false, b')).
Proof.
  intros b'.
  pose proof (DropPacketWithNextHop_entries now nextHop b) as Hall.
  fold b' in Hall.
  assert (Purge now b' = b') as Hp.
  { apply Purge_live. eapply Forall_impl; [exact Hall |]. by intros e [? _]. }
  assert (Forall (λ i, (GetNextHop i =? nextHop)%N = false)
            (m_maintainBuffer b')) as Hnh.
  { eapply Forall_impl; [exact Hall |]. intros e [_ ?]. by apply N.eqb_neq. }
  split; [| split; [| split]].
  - unfold Find; simpl. by apply any_of_false.
  - intros entry. unfold Dequeue. rewrite Hp.
    by rewrite (proj2 (erase_first_None _ _) Hnh).
  - unfold DropPacketWithNextHop. rewrite Hp.
    rewrite remove_if_id by done. apply with_entries_same.
  - intros entry <-.
    split; [| split]; apply erase_match_none;
      (eapply Forall_impl; [exact Hall |]); intros i [_ Hi]; simpl;
      [ destruct (AllEqual_cond entry i) eqn:C; [| done];
        apply AllEqual_cond_agree in C as (_ & ? & _)
      | destruct (NetworkEqual_cond entry i) eqn:C; [| done];
        apply NetworkEqual_cond_agree in C as (_ & ? & _)
      | destruct (LinkEqual_cond entry i) eqn:C; [| done];
        apply LinkEqual_cond_agree in C as (_ & _ & _ & ?) ]; done.
Qed.

Lemma DropPacketWithNextHop_then_witness :
  let b := mkBuffer [sample 1 1 9; sample 2 2 9; sample 1 3 9] 50 9 in
  let b' := mkBuffer [sample 2 2 9] 50 9 in
  DropPacketWithNextHop 0 1 b = b' ∧
  AllEqual (sample 1 1 0) b' = (false, b') ∧
  NetworkEqual (sample 1 1 0) b' = (false, b') ∧
  LinkEqual (sample 1 1 0) b' = (false, b').
Proof.
  intros b b'. split; [reflexivity |].
  destruct (DropPacketWithNextHop_then 0 1 b) as (_ & _ & _ & H).
  by apply (H (sample 1 1 0)).
Defined.

(** X9.  The reconciliation functions from strict to loose: on the same
    buffer and probe, when [AllEqual] succeeds so do [NetworkEqual] and
    [PromiscEqual], and when [NetworkEqual] succeeds so does [LinkEqual]. *)
Theorem match_strength (entry : DsrMaintainBuffEntry) (b : DsrMaintainBuffer) :
  ((AllEqual entry b).1 = true → (NetworkEqual entry b).1 = true) ∧
  ((AllEqual entry b).1 = true → (PromiscEqual entry b).1 = true) ∧
  ((NetworkEqual entry b).1 = true → (LinkEqual entry b).1 = true).
Proof.
  pose proof (erase_match_spec _ _ b (AllEqual_cond_agree entry)) as [_ HA].
  pose proof (erase_match_spec _ _ b (NetworkEqual_cond_agree entry)) as [_ HN].
  pose proof (erase_match_spec _ _ b (PromiscEqual_cond_agree entry)) as [_ HP].
  pose proof (erase_match_spec _ _ b (LinkEqual_cond_agree entry)) as [_ HL].
  unfold AllEqual, NetworkEqual, PromiscEqual, LinkEqual.
  rewrite HA, HN, HP, HL.
  unfold agree_all, agree_network, agree_promisc, agree_link.
  split; [| split]; intros (i & Hi & H); exists i; tauto.
Qed.

Lemma match_strength_witness :
  let b := mkBuffer [sample 1 1 9; sample 2 2 9] 50 9 in
  (AllEqual (sample 2 2 0) b).1 = true ∧
  (NetworkEqual (sample 2 2 0) b).1 = true ∧
  (PromiscEqual (sample 2 2 0) b).1 = true ∧
  (LinkEqual (sample 2 2 0) b).1 = true.
Proof.
  intros b.
  destruct (match_strength (sample 2 2 0) b) as (HN & HP & HL).
  assert ((AllEqual (sample 2 2 0) b).1 = true) as HA by reflexivity.
  split; [exact HA |]. split; [exact (HN HA) |].
  split; [exact (HP HA) | exact (HL (HN HA))].
Defined.

(** X10.  [Dequeue] finds an entry exactly when the buffer holds an entry
    with that next hop that has not expired; the entry it returns is an
    entry of the buffer, has the next hop, has not expired, and [Find]
    sees it; without one the caller's entry is returned as it was.  ([Find]
    alone may be true when every such entry has expired.) *)
Theorem Dequeue_returns_live (now : Time) (nextHop : Ipv4Address)
    (entry : DsrMaintainBuffEntry) (b : DsrMaintainBuffer) :
  let '(found, out, b') := Dequeue now nextHop entry b in
  (found = true ↔
   ∃ i, i ∈ m_maintainBuffer b ∧ m_nextHop i = nextHop ∧ (now ≤ m_expire i)%Z) ∧
  (if found then
     out ∈ m_maintainBuffer b ∧ m_nextHop out = nextHop ∧
     (now ≤ m_expire out)%Z ∧ (Find nextHop b).1 = true ∧
     length (m_maintainBuffer b') + 1 =
       length (m_maintainBuffer (Purge now b))
   else out = entry ∧ b' = Purge now b).
Proof.
  pose proof (Dequeue_flag now nextHop entry b) as Hflag.
  destruct (Dequeue now nextHop entry b) as [[found out] b'] eqn:E.
  simpl in Hflag. split.
  - rewrite Hflag. split; intros (i & Hi & Hn).
    + apply Purge_elem_of in Hi as [? ?]. by exists i.
    + destruct Hn as [? ?]. exists i. split; [by apply Purge_elem_of | done].
  - destruct found.
    + apply Dequeue_found in E as (v1 & v2 & Hv & Hn & _ & ->).
      assert (out ∈ m_maintainBuffer (Purge now b)) as Hin.
      { rewrite Hv. apply elem_of_app. right. by left. }
      apply Purge_elem_of in Hin as [Hin Hlive].
      split; [done |]. split; [done |]. split; [done |]. split.
      * apply Find_flag. by exists out.
      * rewrite Hv. simpl. rewrite !length_app. simpl. lia.
    + by apply Dequeue_not_found in E as (-> & -> & _).
Qed.

(** An expired entry is seen by [Find] and not returned by [Dequeue]. *)
Example find_sees_expired :
  let b := mkBuffer [sample 1 1 5] 50 5 in
  (Find 1 b).1 = true ∧
  Dequeue 9 1 (sample 0 0 0) b = (false, sample 0 0 0, mkBuffer [] 50 5).
Proof. by split. Qed.

(** X11.  Insert and take back: after an accepted [Enqueue] at time
    [now], a [Dequeue] for the entry's next hop at a time [now2] up to the
    deadline returns the entry as it was stored (deadline included),
    provided every older entry for that next hop has expired by [now2];
    what is left is the rest of the vector, purged. *)
Theorem Enqueue_then_Dequeue (now now2 : Time)
    (entry entry' out : DsrMaintainBuffEntry) (b b' : DsrMaintainBuffer) :
  Enqueue now entry b = Some (true, entry', b') →
  (now2 ≤ now + m_maintainBufferTimeout b)%Z →
  Forall (λ i, m_nextHop i = m_nextHop entry → (m_expire i < now2)%Z)
    (m_maintainBuffer b) →
  ∃ v, m_maintainBuffer b' = v ++ [entry'] ∧
       Dequeue now2 (m_nextHop entry) out b' =
         (true, entry', Purge now2 (with_entries b' v)).
Proof.
  intros E Hle Hold.
  apply Enqueue_Some in E as (v & Hv & Hb' & _ & _ & _ & He).
  exists v. split; [done |].
  assert (IsExpired now2 entry' = false) as Hlive.
  { apply IsExpired_false. subst entry'. simpl. lia. }
  assert (m_nextHop entry' = m_nextHop entry) as Hnh by (by subst entry').
  unfold Dequeue. cbn [Purge with_entries m_maintainBuffer].
  rewrite Hb', remove_if_app. simpl. rewrite Hlive.
  replace (erase_first _ _)
    with (Some (entry', remove_if (IsExpired now2) v)); [done |].
  symmetry. apply erase_first_Some.
  exists (remove_if (IsExpired now2) v), [].
  split; [done |]. split; [by rewrite app_nil_r |]. split.
  - unfold GetNextHop. rewrite Hnh. apply N.eqb_refl.
  - apply Forall_forall. intros i Hi.
    apply remove_if_elem_of in Hi as [Hi Hil].
    apply IsExpired_false in Hil. apply N.eqb_neq. intros Hn.
    assert (i ∈ m_maintainBuffer b) as Hib.
    { eapply elem_of_sublist; [exact Hi |].
      etrans; [exact Hv | apply remove_if_sublist]. }
    rewrite Forall_forall in Hold. specialize (Hold i Hib Hn). lia.
Qed.

Lemma Enqueue_then_Dequeue_witness :
  let b := mkBuffer [sample 3 1 5; sample 2 2 100] 50 5 in
  let b' := mkBuffer [sample 2 2 100; sample 3 3 15] 50 5 in
  Dequeue 12 3 (sample 0 0 0) b' =
    (true, sample 3 3 15, mkBuffer [sample 2 2 100] 50 5) ∧
  ∃ v, m_maintainBuffer b' = v ++ [sample 3 3 15] ∧
       Dequeue 12 (m_nextHop (sample 3 3 0)) (sample 0 0 0) b' =
         (true, sample 3 3 15, Purge 12 (with_entries b' v)).
Proof.
  intros b b'. split; [reflexivity |].
  apply (Enqueue_then_Dequeue 10 12 (sample 3 3 0) (sample 3 3 15)
           (sample 0 0 0) b b').
  - reflexivity.
  - simpl; lia.
  - apply Forall_cons. split; [intros _; simpl; lia |].
    apply Forall_cons. split; [intros [=] | constructor].
Defined.

(** ** The count that [GetSize] reports *)

(** X12.  With a timeout that is not negative, on a buffer within its
    capacity (a [uint32_t]), an accepted [Enqueue] raises the count that
    [GetSize] reports at that time by one, up to the capacity: the new
    count is [min (count + 1) maxLen]; a rejected [Enqueue] leaves the
    count as it is. *)
Theorem Enqueue_size (now : Time) (entry entry' : DsrMaintainBuffEntry)
    (ok : bool) (b b' : DsrMaintainBuffer) :
  capacity_ok b → (m_maxLen b < 2 ^ 32)%N →
  (0 ≤ m_maintainBufferTimeout b)%Z →
  Enqueue now entry b = Some (ok, entry', b') →
  (GetSize now b').1 =
    if ok then N.min ((GetSize now b).1 + 1) (m_maxLen b)
    else (GetSize now b).1.
Proof.
  intros Hb Hm Ht E.
  pose proof (Enqueue_bounded _ _ _ _ _ _ Hb E) as (Hm' & _ & Hb').
  rewrite (GetSize_count now b') by (by rewrite ?Hm').
  rewrite (GetSize_count now b) by done.
  cbn [Purge with_entries m_maintainBuffer].
  rewrite Enqueue_cases in E. cbn zeta in E.
  pose proof (remove_if_Forall (IsExpired now) (m_maintainBuffer b)) as Hlive.
  pose proof (remove_if_length (IsExpired now) (m_maintainBuffer b)) as Hlen.
  unfold capacity_ok in Hb.
  set (v := remove_if (IsExpired now) (m_maintainBuffer b)) in *.
  assert (IsExpired now
            (SetExpireTime (m_maintainBufferTimeout b) now entry) = false)
    as Hnew by (apply IsExpired_false; simpl; lia).
  destruct (any_of _ _).
  { injection E as <- <- <-. simpl. by rewrite remove_if_id. }
  destruct (_ <=? _)%N eqn:Hle.
  - destruct v as [|a v'] eqn:Hv; [done |].
    injection E as <- <- <-. simpl.
    apply Forall_cons in Hlive as [_ Hlive].
    rewrite remove_if_app, (remove_if_id _ v') by done. simpl.
    rewrite Hnew, length_app. simpl.
    apply N.leb_le in Hle. simpl in *. lia.
  - injection E as <- <- <-. simpl.
    rewrite remove_if_app, (remove_if_id _ v) by done. simpl.
    rewrite Hnew, length_app. simpl.
    apply N.leb_gt in Hle. lia.
Qed.

Lemma Enqueue_size_witness :
  let b := mkBuffer [sample 1 1 5; sample 2 2 100; sample 3 3 100] 2 5 in
  (GetSize 10 b).1 = 2%N ∧
  (GetSize 10 (mkBuffer [sample 3 3 100; sample 4 4 15] 2 5)).1 = 2%N ∧
  (GetSize 10 (mkBuffer [sample 2 2 100] 2 5)).1 = 1%N.
Proof.
  intros b. split; [reflexivity |]. split.
  - apply (Enqueue_size 10 (sample 4 4 0) (sample 4 4 15) true
             (mkBuffer [sample 2 2 100; sample 3 3 100] 2 5)).
    + unfold capacity_ok; simpl; lia.
    + simpl; lia.
    + simpl; lia.
    + reflexivity.
  - apply (Enqueue_size 10 (sample 2 2 0) (sample 2 2 0) false
             (mkBuffer [sample 2 2 100] 2 5)).
    + unfold capacity_ok; simpl; lia.
    + simpl; lia.
    + simpl; lia.
    + reflexivity.
Defined.

(** X13.  On a buffer within its capacity (a [uint32_t]) the count that
    [GetSize] reports is at most the capacity, does not grow while only
    time passes, drops by exactly one with a successful [Dequeue] at that
    time and stays with a failed one, and does not grow with
    [DropPacketWithNextHop]. *)
Theorem GetSize_changes (now now2 : Time) (b : DsrMaintainBuffer) :
  capacity_ok b → (m_maxLen b < 2 ^ 32)%N →
  ((GetSize now b).1 ≤ m_maxLen b)%N ∧
  ((now ≤ now2)%Z → ((GetSize now2 b).1 ≤ (GetSize now b).1)%N) ∧
  (∀ nextHop entry,
     let r := Dequeue now nextHop entry b in
     ((GetSize now r.2).1 + (if r.1.1 then 1 else 0))%N = (GetSize now b).1) ∧
  (∀ nextHop,
     ((GetSize now (DropPacketWithNextHop now nextHop b)).1 ≤
      (GetSize now b).1)%N).
Proof.
  intros Hb Hm.
  assert (∀ t b', shrinks b b' →
            (GetSize t b').1 = N.of_nat (length (m_maintainBuffer (Purge t b'))))
    as Hcount.
  { intros t b' Hs. pose proof (shrinks_capacity _ _ Hb Hs) as (Hm' & _ & Hb').
    apply GetSize_count; [done | by rewrite Hm']. }
  rewrite (Hcount now b) by apply shrinks_refl.
  pose proof (remove_if_length (IsExpired now) (m_maintainBuffer b)) as Hlen.
  unfold capacity_ok in Hb.
  split; [simpl; lia |]. split; [| split].
  - intros Hle. rewrite (Hcount now2 b) by apply shrinks_refl.
    replace now2 with (Z.max now now2) by lia.
    rewrite <- (proj1 (Purge_twice_aux now now2 b)).
    pose proof (remove_if_length (IsExpired now2)
                  (m_maintainBuffer (Purge now b))).
    simpl in *. lia.
  - intros nextHop entry r. subst r.
    rewrite Hcount by apply Dequeue_shrinks.
    pose proof (Dequeue_all_live now nextHop entry b) as Hlive.
    rewrite Purge_live by done.
    destruct (Dequeue now nextHop entry b) as [[found out] b'] eqn:E.
    destruct found; simpl.
    + apply Dequeue_found in E as (v1 & v2 & Hv & _ & _ & ->).
      simpl in Hv. rewrite Hv. simpl. rewrite !length_app. simpl. lia.
    + apply Dequeue_not_found in E as (_ & -> & _). simpl. lia.
  - intros nextHop. rewrite Hcount by apply DropPacketWithNextHop_shrinks.
    rewrite <- DropPacketWithNextHop_Purge.
    pose proof (DropPacketWithNextHop_entries now nextHop (Purge now b)) as Hall.
    rewrite Purge_live
      by (eapply Forall_impl; [exact Hall |]; by intros e [? _]).
    rewrite DropPacketWithNextHop_Purge.
    pose proof (remove_if_length (λ en, (GetNextHop en =? nextHop)%N)
                  (m_maintainBuffer (Purge now b))).
    simpl in *. lia.
Qed.

Lemma GetSize_changes_witness :
  let b := mkBuffer [sample 1 1 5; sample 2 2 100] 50 5 in
  ((GetSize 0 b).1 ≤ 50)%N ∧
  ((GetSize 10 b).1 ≤ (GetSize 0 b).1)%N ∧
  ((GetSize 0 (Dequeue 0 2 (sample 0 0 0) b).2).1 + 1)%N = (GetSize 0 b).1.
Proof.
  intros b.
  destruct (GetSize_changes 0 10 b) as (H1 & H2 & H3 & _).
  - unfold capacity_ok; simpl; lia.
  - simpl; lia.
  - split; [exact H1 |]. split; [apply H2; lia |].
    exact (H3 2%N (sample 0 0 0)).
Defined.

(** ** An acknowledgment is credited once *)

(** X14.  When no two buffered entries have the same full-tuple key, an
    [AllEqual] that succeeded has erased the only entry with the probe's
    key: [AllEqual] with the same probe on the resulting buffer fails and
    changes nothing. *)
Theorem AllEqual_once (entry : DsrMaintainBuffEntry) (b : DsrMaintainBuffer) :
  keys_distinct b → (AllEqual entry b).1 = true →
  AllEqual entry (AllEqual entry b).2 = (false, (AllEqual entry b).2).
Proof.
  intros Hk Hok.
  pose proof (erase_match_spec _ _ b (AllEqual_cond_agree entry)) as [Hfirst _].
  unfold first_match_removed in Hfirst. fold (AllEqual entry b) in Hfirst.
  rewrite Hok in Hfirst. destruct Hfirst as (v1 & i & v2 & Hv & Hi & Hv1 & ->).
  apply erase_match_none. simpl.
  apply (Forall_cond_false _ (agree_all entry)); [apply AllEqual_cond_agree |].
  apply Forall_app. split; [done |].
  unfold keys_distinct in Hk. rewrite Hv, fmap_app, fmap_cons in Hk.
  apply NoDup_app in Hk as (_ & _ & Hk). apply NoDup_cons in Hk as [Hk _].
  apply Forall_forall. intros j Hj Hagree. apply Hk.
  apply agree_all_key in Hi, Hagree. rewrite Hi, <- Hagree.
  by apply list_elem_of_fmap_2.
Qed.

Lemma AllEqual_once_witness :
  let b := mkBuffer [sample 1 1 9; sample 2 2 9] 50 9 in
  AllEqual (sample 2 2 0) b = (true, mkBuffer [sample 1 1 9] 50 9) ∧
  AllEqual (sample 2 2 0) (mkBuffer [sample 1 1 9] 50 9) =
    (false, mkBuffer [sample 1 1 9] 50 9).
Proof.
  intros b. split; [reflexivity |].
  apply (AllEqual_once (sample 2 2 0) b); [| reflexivity].
  apply (bool_decide_unpack _). vm_compute. exact I.
Defined.

(** Without that the looser channels may credit twice: two entries that
    differ in the acknowledgment id only are both link-layer matches. *)
Example LinkEqual_twice :
  let b := mkBuffer [sample 2 1 9; sample 2 2 9] 50 9 in
  keys_distinct b ∧
  LinkEqual (sample 2 7 0) b = (true, mkBuffer [sample 2 2 9] 50 9) ∧
  LinkEqual (sample 2 7 0) (mkBuffer [sample 2 2 9] 50 9) =
    (true, mkBuffer [] 50 9).
Proof.
  split; [| by split].
  apply (bool_decide_unpack _). vm_compute. exact I.
Qed.

End Dsr.
